(** * A linked-list priority queue (ilm_qa.py)

    Shallow embedding of [Job] and [PriorityQueue] from [src/ilm_qa.py].
    Python objects live in a heap of [Job] cells addressed by references;
    the methods of [PriorityQueue] are programs in a small state and
    exception monad over that heap, written statement by statement after
    the source. *)

From Stdlib Require Import ZArith String.
From stdpp Require Import base numbers option list sorting.

Local Open Scope string_scope.
Local Open Scope Z_scope.
Local Open Scope list_scope.

(** ** Data model *)

Definition MIN_PR : Z := 0.
Definition MAX_PR : Z := 10.

(** [class Command(str)] *)
Abbreviation Command := string (only parsing).

(** A reference to a [Job] object: its index in the heap.  The n-th [Job]
    ever constructed gets reference n. *)
Abbreviation loc := nat (only parsing).

(** [@dataclass class Job]: [command], [priority] and the link [next]
    ([None] at the tail). *)
Record Job : Type := mkJob {
  command : Command;
  priority : Z;
  next : option loc
}.

(** [class PriorityQueue]: the one attribute [head]. *)
Record PriorityQueue : Type := mkPriorityQueue {
  head : option loc
}.

(** The program state: every [Job] constructed so far, and the queue
    object [self]. *)
Record state : Type := mkState {
  heap : list Job;
  self : PriorityQueue
}.

(** ** Exceptions and the monad *)

Inductive exn : Type :=
| AssertionError (msg : string).

(** Outcome of running a method: a value, a raised exception (the state is
    what it was when the exception left the method), a loop that used up
    its fuel, or a read through a reference that names no object (which a
    Python heap never contains). *)
Inductive result (A : Type) : Type :=
| Ok (a : A) (s : state)
| Raise (e : exn) (s : state)
| OutOfFuel
| Wild.
Arguments Ok {A} a s.
Arguments Raise {A} e s.
Arguments OutOfFuel {A}.
Arguments Wild {A}.

Definition M (A : Type) : Type := state -> result A.

Definition ret {A : Type} (a : A) : M A := fun s => Ok a s.

Definition bind {A B : Type} (m : M A) (k : A -> M B) : M B :=
  fun s =>
    match m s with
    | Ok a s' => k a s'
    | Raise e s' => Raise e s'
    | OutOfFuel => OutOfFuel
    | Wild => Wild
    end.

Notation "'let!' x ':=' m 'in' k" := (bind m (fun x => k))
  (at level 10, x name, m at level 100, k at level 200).

Definition raise {A : Type} (e : exn) : M A := fun s => Raise e s.
Definition out_of_fuel {A : Type} : M A := fun _ => OutOfFuel.
Definition wild {A : Type} : M A := fun _ => Wild.

(** Heap primitives: reading an object, constructing one, assigning its
    [next] attribute, and reading or assigning [self.head]. *)
Definition load (l : loc) : M Job :=
  fun s =>
    match heap s !! l with
    | Some j => Ok j s
    | None => Wild
    end.

Definition alloc (j : Job) : M loc :=
  fun s => Ok (length (heap s)) (mkState (heap s ++ [j]) (self s)).

Definition set_next (l : loc) (n : option loc) : M unit :=
  fun s =>
    match heap s !! l with
    | Some j =>
        Ok tt (mkState (<[l := mkJob (command j) (priority j) n]> (heap s))
                       (self s))
    | None => Wild
    end.

Definition get_head : M (option loc) := fun s => Ok (head (self s)) s.

Definition set_head (h : option loc) : M unit :=
  fun s => Ok tt (mkState (heap s) (mkPriorityQueue h)).

Definition heap_size : M nat := fun s => Ok (length (heap s)) s.

(** ** Job *)

(** [x in range(lo, hi)] for an integer [x]. *)
Definition in_range (x lo hi : Z) : bool := (lo <=? x) && (x <? hi).

(** [Job.__post_init__] *)
Definition post_init (j : Job) : M unit :=
  if in_range (priority j) MIN_PR (MAX_PR + 1) then ret tt
  else raise (AssertionError "`priority` must be an integer value [0, 10]").

(** [Job(command, priority)]: the generated [__init__] fills the fields
    ([next] defaults to [None]) and calls [__post_init__]; the caller gets
    the reference only when that returns. *)
Definition new_Job (cmd : Command) (prio : Z) : M loc :=
  let j := mkJob cmd prio None in
  let! _ := post_init j in
  alloc j.

(** ** PriorityQueue *)

(** [PriorityQueue()] in a program that has built no [Job] yet. *)
Definition init : state := mkState [] (mkPriorityQueue None).

Definition is_empty : M bool :=
  let! h := get_head in
  ret (match h with None => true | Some _ => false end).

(** The loop of [enqueue]:
    [while current.next is not None and current.next.priority >= priority:
       current = current.next]. *)
Fixpoint walk (fuel : nat) (prio : Z) (current : loc) : M loc :=
  match fuel with
  | O => out_of_fuel
  | S fuel' =>
      let! cur := load current in
      match next cur with
      | None => ret current
      | Some n =>
          let! nj := load n in
          if priority nj >=? prio then walk fuel' prio n
          else ret current
      end
  end.

(** [PriorityQueue.enqueue].  The loop gets as much fuel as there are
    objects in the heap: it visits each object of the chain at most once
    unless the chain has a cycle, where the source does not terminate. *)
Definition enqueue (cmd : Command) (prio : Z) : M unit :=
  let! job := new_Job cmd prio in
  let! e := is_empty in
  if e then set_head (Some job)
  else
    let! h := get_head in
    match h with
    | None => wild
    | Some hd =>
        let! hj := load hd in
        if prio >? priority hj then
          let! _ := set_next job (Some hd) in
          set_head (Some job)
        else
          let! fuel := heap_size in
          let! current := walk fuel prio hd in
          let! cj := load current in
          let! _ := set_next job (next cj) in
          set_next current (Some job)
    end.

(** [PriorityQueue.dequeue] *)
Definition dequeue : M (option Command) :=
  let! e := is_empty in
  if e then ret None
  else
    let! h := get_head in
    match h with
    | None => wild
    | Some job =>
        let! hj := load job in
        let! _ := set_head (next hj) in
        let! j := load job in
        ret (Some (command j))
    end.

(** [PriorityQueue.peek] *)
Definition peek : M (option Command) :=
  let! e := is_empty in
  if e then ret None
  else
    let! h := get_head in
    match h with
    | None => wild
    | Some hd =>
        let! hj := load hd in
        ret (Some (command hj))
    end.

(** ** The driver [answer4] *)

Definition commands : list (Command * Z) :=
  [("zbe", 7); ("lmy", 10); ("swc", 7); ("jtc", 2); ("slg", 4);
   ("rwa", 10); ("zln", 1); ("ytm", 6); ("aou", 8); ("uuv", 3)].

Definition expected : list Command :=
  ["lmy"; "rwa"; "aou"; "zbe"; "swc"; "ytm"; "slg"; "uuv"; "jtc"; "zln"].

(** [for command in ...: pq.enqueue(command, priority)] *)
Fixpoint enqueue_all (cs : list (Command * Z)) : M unit :=
  match cs with
  | [] => ret tt
  | (cmd, prio) :: cs' =>
      let! _ := enqueue cmd prio in
      enqueue_all cs'
  end.

(** [if comm:] on a value that is a string or [None]. *)
Definition truthy (comm : option Command) : bool :=
  match comm with
  | None => false
  | Some c => negb (String.eqb c "")
  end.

(** [for _ in range(0, n): comm = pq.dequeue(); if comm: append] *)
Fixpoint dequeue_loop (n : nat) (queued_commands : list Command)
  : M (list Command) :=
  match n with
  | O => ret queued_commands
  | S n' =>
      let! comm := dequeue in
      match comm with
      | Some c =>
          if truthy comm then dequeue_loop n' (queued_commands ++ [c])
          else dequeue_loop n' queued_commands
      | None => dequeue_loop n' queued_commands
      end
  end.

(** [answer4] up to its final [assert], returning [queued_commands]. *)
Definition answer4 : M (list Command) :=
  let MAX := (length commands + 1)%nat in
  let! _ := enqueue_all (take MAX commands) in
  dequeue_loop MAX [].


(** ** Reading the chain *)

(** [chain h hd ls]: following [next] from the reference [hd] through the
    heap [h] visits exactly the objects [ls], in this order, and ends in
    [None]. *)
Inductive chain (h : list Job) : option loc -> list loc -> Prop :=
| chain_nil : chain h None []
| chain_cons (l : loc) (j : Job) (ls : list loc) :
    h !! l = Some j ->
    chain h (next j) ls ->
    chain h (Some l) (l :: ls).

(** The same walk as a function, for heaps given in full. *)
Fixpoint read_chain (fuel : nat) (h : list Job) (hd : option loc)
  : option (list loc) :=
  match hd with
  | None => Some []
  | Some l =>
      match fuel, h !! l with
      | S fuel', Some j => cons l <$> read_chain fuel' h (next j)
      | _, _ => None
      end
  end.

(** The chain of the queue in state [s]. *)
Definition queue_chain (s : state) (ls : list loc) : Prop :=
  chain (heap s) (head (self s)) ls.

(** Command and priority of the object behind a reference. *)
Definition cmd_at (h : list Job) (l : loc) : Command :=
  from_option command "" (h !! l).
Definition prio_at (h : list Job) (l : loc) : Z :=
  from_option priority 0 (h !! l).

(** What the heap holds, links left out: the n-th entry is the command
    and priority of the n-th [Job] constructed. *)
Definition payload (h : list Job) : list (Command * Z) :=
  (fun j => (command j, priority j)) <$> h.

(** The jobs behind a list of references. *)
Definition contents (h : list Job) (ls : list loc) : list (Command * Z) :=
  (fun l => (cmd_at h l, prio_at h l)) <$> ls.

(** A priority the constructor accepts. *)
Definition valid_priority (p : Z) : Prop := MIN_PR <= p <= MAX_PR.

(** [before f a b]: job [a] has to leave the queue before job [b], where
    [f] gives the priorities: higher priority first, and of two jobs of
    one priority the one constructed first. *)
Definition before (f : loc -> Z) (a b : loc) : Prop :=
  f b < f a \/ (f a = f b /\ (a < b)%nat).

(** ** The caller's side *)

Inductive op : Type :=
| Enqueue (cmd : Command) (prio : Z)
| Dequeue
| Peek
| IsEmpty.

(** The state a caller that catches exceptions goes on with. *)
Definition after {A : Type} (r : result A) : option state :=
  match r with
  | Ok _ s => Some s
  | Raise _ s => Some s
  | OutOfFuel => None
  | Wild => None
  end.

Definition step (o : op) (s : state) : option state :=
  match o with
  | Enqueue cmd prio => after (enqueue cmd prio s)
  | Dequeue => after (dequeue s)
  | Peek => after (peek s)
  | IsEmpty => after (is_empty s)
  end.

Fixpoint run (ops : list op) (s : state) : option state :=
  match ops with
  | [] => Some s
  | o :: ops' =>
      match step o s with
      | Some s' => run ops' s'
      | None => None
      end
  end.

(** The jobs a run of [ops] constructs: the [Enqueue] calls whose
    priority passes [__post_init__], in call order. *)
Fixpoint accepted (ops : list op) : list (Command * Z) :=
  match ops with
  | [] => []
  | Enqueue cmd prio :: ops' =>
      if in_range prio MIN_PR (MAX_PR + 1) then (cmd, prio) :: accepted ops'
      else accepted ops'
  | _ :: ops' => accepted ops'
  end.

(** [n] calls of a method in a row, results collected in call order. *)
Fixpoint repeat_call {A : Type} (m : M A) (n : nat) : M (list A) :=
  match n with
  | O => ret []
  | S n' =>
      let! a := m in
      let! rest := repeat_call m n' in
      ret (a :: rest)
  end.

(** [while not pq.is_empty(): out.append(pq.dequeue())] *)
Fixpoint drain (fuel : nat) : M (list (option Command)) :=
  match fuel with
  | O => out_of_fuel
  | S fuel' =>
      let! e := is_empty in
      if e then ret []
      else
        let! c := dequeue in
        let! rest := drain fuel' in
        ret (c :: rest)
  end.

(** [ordered s ls]: the queue's chain in [s] is [ls], and it is in order:
    descending priority, construction order within one priority. *)
Definition ordered (s : state) (ls : list loc) : Prop :=
  queue_chain s ls /\ StronglySorted (before (prio_at (heap s))) ls.

(** Jobs in descending order of priority. *)
Definition descending (js : list (Command * Z)) : Prop :=
  StronglySorted (fun x y => y.2 <= x.2) js.

(** The jobs of priority [p] among [js], in the order they have there. *)
Definition with_priority (p : Z) (js : list (Command * Z))
  : list (Command * Z) :=
  filter (fun x => x.2 = p) js.

(** [stably_sorted cs s ls]: the chain [ls] of [s] holds the jobs [cs],
    in descending priority and, within one priority, in the order of
    [cs]. *)
Definition stably_sorted (cs : list (Command * Z)) (s : state)
  (ls : list loc) : Prop :=
  queue_chain s ls /\
  contents (heap s) ls ≡ₚ cs /\
  descending (contents (heap s) ls) /\
  forall p, with_priority p (contents (heap s) ls) = with_priority p cs.

(** The value a call returned, if it returned. *)
Definition returned {A : Type} (r : result A) : option A :=
  match r with
  | Ok a _ => Some a
  | _ => None
  end.

(** A queue of three jobs: the heap after
    [enqueue("a", 5); enqueue("b", 7); enqueue("c", 5)]. *)
Definition sample : state :=
  mkState [mkJob "a" 5 (Some 2%nat); mkJob "b" 7 (Some 0%nat);
           mkJob "c" 5 None]
          (mkPriorityQueue (Some 1%nat)).

(** The caller's side again, keeping what [dequeue] hands back: the
    commands returned by the [Dequeue] calls of a run, in call order (a
    [dequeue] on an empty queue returns [None] and hands back nothing). *)
Definition step_out (o : op) (s : state) : option (state * list Command) :=
  match o with
  | Dequeue =>
      match dequeue s with
      | Ok (Some c) s' => Some (s', [c])
      | Ok None s' => Some (s', [])
      | Raise _ s' => Some (s', [])
      | OutOfFuel => None
      | Wild => None
      end
  | _ =>
      match step o s with
      | Some s' => Some (s', [])
      | None => None
      end
  end.

Fixpoint run_out (ops : list op) (s : state)
  : option (state * list Command) :=
  match ops with
  | [] => Some (s, [])
  | o :: ops' =>
      match step_out o s with
      | Some (s1, out1) =>
          match run_out ops' s1 with
          | Some (s2, out2) => Some (s2, out1 ++ out2)
          | None => None
          end
      | None => None
      end
  end.

(** The order the queue is meant to release jobs in, written down
    directly: priority 10 first, then 9, ..., then 0, and the jobs of one
    priority in the order they have in [cs]. *)
Definition by_priority (cs : list (Command * Z)) : list (Command * Z) :=
  flat_map (fun p => with_priority p cs) [10; 9; 8; 7; 6; 5; 4; 3; 2; 1; 0].

(** The commands the driver's loop keeps: those [if comm:] accepts. *)
Definition kept (cs : list Command) : list Command :=
  List.filter (fun c => truthy (Some c)) cs.

(** [accounted s ls out]: the chain of [s] is [ls], and every [Job]
    constructed so far is either on the chain or was handed back, once:
    the references off the chain, in some order [gone], together with [ls]
    are all the references of the heap, and [out] are the commands of
    [gone]. *)
Definition accounted (s : state) (ls : list loc) (out : list Command)
  : Prop :=
  queue_chain s ls /\
  exists gone,
    gone ++ ls ≡ₚ seq 0 (length (heap s)) /\
    out = cmd_at (heap s) <$> gone.

(** * Verification *)

(** Unfolds the monad and the heap primitives of a method body. *)
Ltac step_monad :=
  cbv beta iota delta
    [bind ret raise wild load alloc set_next get_head set_head heap_size
     is_empty new_Job post_init].

(** Splits a conjunction into its parts, and nothing else. *)
Ltac split_all := repeat match goal with |- _ /\ _ => split end.

(** ** The chain relation *)

Section Chain.
Implicit Types (h : list Job) (hd : option loc) (ls : list loc) (l : loc).

Lemma chain_det h hd ls1 ls2 :
  chain h hd ls1 -> chain h hd ls2 -> ls1 = ls2.
Proof.
  intros H1. revert ls2.
  induction H1 as [|l j ls Hl _ IH]; intros ls2 H2; inversion H2; subst.
  - reflexivity.
  - f_equal. apply IH. congruence.
Qed.

Lemma chain_cons_inv h l ls :
  chain h (Some l) (l :: ls) ->
  exists j, h !! l = Some j /\ chain h (next j) ls.
Proof. intros H. inversion H; subst. eauto. Qed.

Lemma chain_bound h hd ls :
  chain h hd ls -> Forall (fun l => (l < length h)%nat) ls.
Proof.
  induction 1 as [|l j ls Hl _ IH]; constructor; [|exact IH].
  eapply lookup_lt_Some; eassumption.
Qed.

Lemma chain_suffix h hd pre l post :
  chain h hd (pre ++ l :: post) -> chain h (Some l) (l :: post).
Proof.
  revert hd. induction pre as [|a pre IH]; intros hd H; simpl in H.
  - inversion H; subst. econstructor; eassumption.
  - inversion H; subst. eapply IH; eassumption.
Qed.

Lemma chain_NoDup h hd ls : chain h hd ls -> NoDup ls.
Proof.
  induction 1 as [|l j ls Hl Hch IH]; constructor; [|exact IH].
  intros Hin. apply list_elem_of_split in Hin as (a & b & ->).
  pose proof (chain_suffix _ _ _ _ _ Hch) as Hs.
  assert (Hfull : chain h (Some l) (l :: a ++ l :: b))
    by (econstructor; eassumption).
  pose proof (chain_det _ _ _ _ Hs Hfull) as Heq.
  apply (f_equal length) in Heq. simpl in Heq.
  rewrite length_app in Heq. simpl in Heq. lia.
Qed.

Lemma read_chain_sound fuel h hd ls :
  read_chain fuel h hd = Some ls -> chain h hd ls.
Proof.
  revert hd ls. induction fuel as [|fuel IH]; intros [l|] ls H; simpl in H.
  - discriminate.
  - inversion H; subst. constructor.
  - destruct (h !! l) as [j|] eqn:Hl; [|discriminate].
    destruct (read_chain fuel h (next j)) as [ls'|] eqn:Hr; [|discriminate].
    inversion H; subst. econstructor; eauto.
  - inversion H; subst. constructor.
Qed.

Lemma read_chain_complete h hd ls :
  chain h hd ls -> read_chain (length ls) h hd = Some ls.
Proof.
  induction 1 as [|l j ls Hl _ IH]; simpl; [reflexivity|].
  rewrite Hl, IH. reflexivity.
Qed.

(** Constructing a new object leaves every chain as it is. *)
Lemma chain_alloc h hd ls j : chain h hd ls -> chain (h ++ [j]) hd ls.
Proof.
  induction 1 as [|l j' ls Hl _ IH]; econstructor; [|exact IH].
  apply lookup_app_l_Some. exact Hl.
Qed.

(** So does an assignment to an object outside the chain. *)
Lemma chain_insert_outside h hd ls l j :
  chain h hd ls -> l ∉ ls -> chain (<[l := j]> h) hd ls.
Proof.
  induction 1 as [|l' j' ls Hl _ IH]; intros Hnin; [constructor|].
  apply not_elem_of_cons in Hnin as [Hne Hnin].
  econstructor; [|apply IH; exact Hnin].
  rewrite list_lookup_insert_ne by congruence. exact Hl.
Qed.

(** Relinking: if the heap changes only at [cur] and at objects outside
    the chain's prefix, the chain is the old prefix followed by the new
    chain of [cur]. *)
Lemma chain_relink h h' hd pre cur rest rest' j' :
  chain h hd (pre ++ cur :: rest) ->
  (forall a, a ∈ pre -> h' !! a = h !! a) ->
  h' !! cur = Some j' ->
  chain h' (next j') rest' ->
  chain h' hd (pre ++ cur :: rest').
Proof.
  revert hd. induction pre as [|a pre IH]; intros hd Hch Hsame Hcur Hrest;
    simpl in *; inversion Hch; subst.
  - econstructor; eassumption.
  - econstructor.
    + rewrite Hsame by (left). eassumption.
    + apply IH; auto. intros b Hb. apply Hsame. right. exact Hb.
Qed.
End Chain.

(** ** The heap under the methods' assignments *)

Section Heap.
Implicit Types (h : list Job) (ls : list loc) (l : loc).

Lemma prio_at_payload h l :
  prio_at h l = from_option snd 0 (payload h !! l).
Proof.
  unfold prio_at, payload. rewrite list_lookup_fmap.
  destruct (h !! l); reflexivity.
Qed.

Lemma cmd_at_payload h l :
  cmd_at h l = from_option fst "" (payload h !! l).
Proof.
  unfold cmd_at, payload. rewrite list_lookup_fmap.
  destruct (h !! l); reflexivity.
Qed.

(** Assigning [next] changes no command and no priority. *)
Lemma payload_set_next h l j n :
  h !! l = Some j ->
  payload (<[l := mkJob (command j) (priority j) n]> h) = payload h.
Proof.
  intros Hl. unfold payload. rewrite list_fmap_insert. simpl.
  apply list_insert_id. rewrite list_lookup_fmap, Hl. reflexivity.
Qed.

Lemma payload_length h : length (payload h) = length h.
Proof. unfold payload. apply length_fmap. Qed.

(** After one more [Job], the old references read as before. *)
Lemma prio_at_grow h h' x l :
  payload h' = payload h ++ [x] -> (l < length h)%nat ->
  prio_at h' l = prio_at h l.
Proof.
  intros Hp Hl. rewrite !prio_at_payload, Hp.
  rewrite lookup_app_l by (rewrite payload_length; exact Hl). reflexivity.
Qed.

Lemma cmd_at_grow h h' x l :
  payload h' = payload h ++ [x] -> (l < length h)%nat ->
  cmd_at h' l = cmd_at h l.
Proof.
  intros Hp Hl. rewrite !cmd_at_payload, Hp.
  rewrite lookup_app_l by (rewrite payload_length; exact Hl). reflexivity.
Qed.

Lemma prio_at_new h h' c p :
  payload h' = payload h ++ [(c, p)] -> prio_at h' (length h) = p.
Proof.
  intros Hp. rewrite prio_at_payload, Hp.
  rewrite <- (payload_length h), list_lookup_middle by reflexivity.
  reflexivity.
Qed.

Lemma cmd_at_new h h' c p :
  payload h' = payload h ++ [(c, p)] -> cmd_at h' (length h) = c.
Proof.
  intros Hp. rewrite cmd_at_payload, Hp.
  rewrite <- (payload_length h), list_lookup_middle by reflexivity.
  reflexivity.
Qed.

Lemma contents_grow h h' x ls :
  payload h' = payload h ++ [x] ->
  Forall (fun l => (l < length h)%nat) ls ->
  contents h' ls = contents h ls.
Proof.
  intros Hp Hb. unfold contents. apply list_fmap_ext.
  intros i l Hl. rewrite Forall_forall in Hb.
  assert (l < length h)%nat
    by (apply Hb, list_elem_of_lookup; eauto).
  erewrite cmd_at_grow, prio_at_grow by eauto. reflexivity.
Qed.

(** A chain is no longer than the heap it runs through. *)
Lemma chain_length h hd ls : chain h hd ls -> (length ls <= length h)%nat.
Proof.
  intros Hch.
  pose proof (chain_NoDup _ _ _ Hch) as Hnd.
  pose proof (chain_bound _ _ _ Hch) as Hb.
  rewrite Forall_forall in Hb.
  rewrite <- (length_seq (length h) 0).
  apply submseteq_length, NoDup_submseteq; [exact Hnd|].
  intros x Hx. apply elem_of_seq. specialize (Hb x Hx). lia.
Qed.
End Heap.

(** ** The methods, one at a time *)

Section Methods.
Implicit Types (s : state) (ls : list loc) (l : loc).

Lemma is_empty_spec s :
  is_empty s = Ok (bool_decide (head (self s) = None)) s.
Proof.
  step_monad. destruct (head (self s)); reflexivity.
Qed.

Lemma peek_empty s : head (self s) = None -> peek s = Ok None s.
Proof.
  destruct s as [h [hd]]; simpl. intros ->. reflexivity.
Qed.

Lemma peek_head s l j :
  head (self s) = Some l -> heap s !! l = Some j ->
  peek s = Ok (Some (command j)) s.
Proof.
  destruct s as [h [hd]]; simpl. intros -> Hl.
  unfold peek. step_monad. simpl. rewrite Hl. reflexivity.
Qed.

Lemma dequeue_empty s : head (self s) = None -> dequeue s = Ok None s.
Proof.
  destruct s as [h [hd]]; simpl. intros ->. reflexivity.
Qed.

Lemma dequeue_head s l j :
  head (self s) = Some l -> heap s !! l = Some j ->
  dequeue s =
    Ok (Some (command j)) (mkState (heap s) (mkPriorityQueue (next j))).
Proof.
  destruct s as [h [hd]]; simpl. intros -> Hl.
  unfold dequeue. step_monad. simpl. rewrite Hl. simpl. rewrite Hl.
  reflexivity.
Qed.

(** A priority outside [range(MIN_PR, MAX_PR + 1)] makes [enqueue] raise
    out of the constructor, in the state it was called in. *)
Lemma enqueue_invalid s cmd prio :
  in_range prio MIN_PR (MAX_PR + 1) = false ->
  enqueue cmd prio s =
    Raise (AssertionError "`priority` must be an integer value [0, 10]") s.
Proof.
  intros Hr. unfold enqueue. step_monad. simpl. rewrite Hr. reflexivity.
Qed.

Lemma in_range_valid p :
  in_range p MIN_PR (MAX_PR + 1) = true <-> valid_priority p.
Proof.
  unfold in_range, valid_priority, MIN_PR, MAX_PR.
  rewrite andb_true_iff, Z.leb_le, Z.ltb_lt. lia.
Qed.

Lemma in_range_invalid p :
  in_range p MIN_PR (MAX_PR + 1) = false <-> p < MIN_PR \/ MAX_PR < p.
Proof.
  unfold in_range, MIN_PR, MAX_PR.
  rewrite andb_false_iff, Z.leb_gt, Z.ltb_ge. lia.
Qed.

(** The loop stops at the last object of the leading run of jobs whose
    priority is at least [prio]. *)
Lemma walk_spec prio s post :
  forall cur fuel,
    chain (heap s) (Some cur) (cur :: post) ->
    (length post < fuel)%nat ->
    prio <= prio_at (heap s) cur ->
    exists mid c rest,
      cur :: post = mid ++ c :: rest /\
      Forall (fun l => prio <= prio_at (heap s) l) (mid ++ [c]) /\
      (forall l rest', rest = l :: rest' -> prio_at (heap s) l < prio) /\
      walk fuel prio cur s = Ok c s.
Proof.
  induction post as [|n post IH]; intros cur fuel Hch Hfuel Hcur;
    (destruct fuel as [|fuel]; [simpl in Hfuel; lia|]);
    inversion Hch as [|? j ? Hl Hnext]; subst.
  - inversion Hnext as [Hnone|]; subst.
    exists [], cur, []. repeat split.
    + repeat constructor. exact Hcur.
    + intros ? ? ?; discriminate.
    + simpl. step_monad. rewrite Hl, <- Hnone. reflexivity.
  - inversion Hnext as [|? nj ? Hn Hnn Hsome]; subst.
    assert (Hw : walk (S fuel) prio cur s =
                 if priority nj >=? prio then walk fuel prio n s
                 else Ok cur s).
    { simpl. step_monad. rewrite Hl, <- Hsome, Hn.
      destruct (priority nj >=? prio); reflexivity. }
    assert (Hpn : prio_at (heap s) n = priority nj)
      by (unfold prio_at; rewrite Hn; reflexivity).
    rewrite Z.geb_leb in Hw.
    destruct (Z.leb_spec prio (priority nj)) as [Hge|Hlt].
    + destruct (IH n fuel) as (mid & c & rest & Heq & Hall & Hrest & Hwalk).
      * econstructor; eassumption.
      * simpl in Hfuel. lia.
      * lia.
      * exists (cur :: mid), c, rest. repeat split.
        -- simpl. rewrite Heq. reflexivity.
        -- simpl. constructor; assumption.
        -- exact Hrest.
        -- rewrite Hw. exact Hwalk.
    + exists [], cur, (n :: post). repeat split.
      * repeat constructor. exact Hcur.
      * intros l rest' Heq. injection Heq as <- _. lia.
      * exact Hw.
Qed.
(** More fuel does not change what the loop returns. *)
Lemma walk_fuel_mono fuel :
  forall prio cur s c s' k,
    walk fuel prio cur s = Ok c s' ->
    walk (fuel + k) prio cur s = Ok c s'.
Proof.
  induction fuel as [|fuel IH]; intros prio cur s c s' k; simpl;
    [discriminate|].
  step_monad.
  destruct (heap s !! cur) as [cj|]; [|discriminate].
  destruct (next cj) as [n|]; [|auto].
  destruct (heap s !! n) as [nj|]; [|discriminate].
  destruct (priority nj >=? prio); [apply IH|auto].
Qed.

(** The loop reads the heap and raises nothing. *)
Lemma walk_never_raises fuel :
  forall prio cur s e s', walk fuel prio cur s <> Raise e s'.
Proof.
  induction fuel as [|fuel IH]; intros prio cur s e s'; simpl;
    [discriminate|].
  step_monad.
  destruct (heap s !! cur) as [cj|]; [|discriminate].
  destruct (next cj) as [n|]; [|discriminate].
  destruct (heap s !! n) as [nj|]; [|discriminate].
  destruct (priority nj >=? prio); [apply IH|discriminate].
Qed.

(** In whatever state, [enqueue] raises only out of the constructor: the
    priority is out of range and the state is the one it was called in. *)
Lemma enqueue_raise_inv s cmd prio e s' :
  enqueue cmd prio s = Raise e s' ->
  in_range prio MIN_PR (MAX_PR + 1) = false /\ s' = s.
Proof.
  destruct s as [h [hd]]. unfold enqueue. step_monad. simpl.
  destruct (in_range prio MIN_PR (MAX_PR + 1)); simpl;
    [|intros [= _ <-]; auto].
  destruct hd as [hd|]; simpl; [|discriminate].
  destruct ((h ++ [mkJob cmd prio None]) !! hd) as [hj|]; simpl;
    [|discriminate].
  destruct (prio >? priority hj); simpl.
  - destruct ((h ++ [mkJob cmd prio None]) !! length h); discriminate.
  - match goal with
    | |- context [walk ?f ?p ?c ?st] =>
        destruct (walk f p c st) as [c1 s1|e1 s1| |] eqn:Hw
    end; try discriminate.
    + repeat match goal with
             | |- context [match @lookup ?K ?A ?L ?I ?i ?l with _ => _ end] =>
                 destruct (@lookup K A L I i l); simpl
             end; discriminate.
    + exfalso. eapply walk_never_raises. exact Hw.
Qed.

End Methods.

(** ** What [enqueue] does to the chain *)

Section Enqueue.
Implicit Types (s : state) (ls : list loc) (l : loc).

(** With a priority the constructor accepts, [enqueue] returns, and the
    chain afterwards is the old one with the new object spliced in
    behind the leading jobs of priority at least [prio]. *)
Lemma enqueue_spec s ls cmd prio :
  queue_chain s ls ->
  in_range prio MIN_PR (MAX_PR + 1) = true ->
  exists s' pre post,
    enqueue cmd prio s = Ok tt s' /\
    ls = pre ++ post /\
    queue_chain s' (pre ++ length (heap s) :: post) /\
    payload (heap s') = payload (heap s) ++ [(cmd, prio)] /\
    Forall (fun l => prio <= prio_at (heap s) l) pre /\
    (forall l post', post = l :: post' -> prio_at (heap s) l < prio).
Proof.
  destruct s as [h [hd]]. unfold queue_chain. simpl. intros Hch Hr.
  unfold enqueue. step_monad. simpl. rewrite Hr. simpl.
  remember (length h) as n eqn:En.
  remember (mkJob cmd prio None) as j0 eqn:Ej.
  assert (Hn : (h ++ [j0]) !! n = Some j0)
    by (apply list_lookup_middle; exact En).
  assert (Hp0 : payload (h ++ [j0]) = payload h ++ [(cmd, prio)])
    by (unfold payload; rewrite fmap_app, Ej; reflexivity).
  pose proof (chain_bound _ _ _ Hch) as Hb.
  rewrite Forall_forall, <- En in Hb.
  assert (Hfresh : n ∉ ls) by (intros Hin; specialize (Hb _ Hin); lia).
  destruct Hch as [|hd' hj ls' Hhd Hnext]; simpl.
  - (* empty queue *)
    exists (mkState (h ++ [j0]) (mkPriorityQueue (Some n))), [], [].
    simpl. split_all; auto.
    + econstructor; [exact Hn|]. rewrite Ej. constructor.
    + intros ? ? ?; discriminate.
  - assert (Hch : chain h (Some hd') (hd' :: ls'))
      by (econstructor; eassumption).
    rewrite (lookup_app_l_Some _ _ _ _ Hhd). simpl.
    rewrite Z.gtb_ltb.
    destruct (Z.ltb_spec (priority hj) prio) as [Hgt|Hle]; simpl.
    + (* in front of the head *)
      rewrite Hn.
      eexists _, [], (hd' :: ls'). split; [reflexivity|].
      simpl. split_all.
      * reflexivity.
      * econstructor.
        -- apply list_lookup_insert_eq. rewrite length_app. simpl. lia.
        -- simpl. apply chain_insert_outside; [|exact Hfresh].
           apply chain_alloc. exact Hch.
      * rewrite (payload_set_next _ _ j0) by exact Hn. exact Hp0.
      * constructor.
      * intros l post' Heq. injection Heq as <- _.
        unfold prio_at. rewrite Hhd. simpl. exact Hgt.
    + (* behind the leading run *)
      set (s1 := mkState (h ++ [j0]) (mkPriorityQueue (Some hd'))).
      assert (Hch1 : chain (heap s1) (Some hd') (hd' :: ls'))
        by (apply chain_alloc; exact Hch).
      assert (Hgrow : forall l, (l < n)%nat ->
                 prio_at (heap s1) l = prio_at h l)
        by (intros l Hl; eapply prio_at_grow; [exact Hp0|lia]).
      pose proof (chain_length _ _ _ Hch) as Hlen. simpl in Hlen.
      destruct (walk_spec prio s1 ls' hd' (length (h ++ [j0])))
        as (mid & c & rest & Heq & Hall & Hrest & Hwalk).
      * exact Hch1.
      * rewrite length_app. simpl. lia.
      * rewrite Hgrow by (apply Hb; left).
        unfold prio_at. rewrite Hhd. simpl. exact Hle.
      * fold s1. rewrite Hwalk. simpl.
        rewrite Heq in Hch1, Hch.
        pose proof (chain_NoDup _ _ _ Hch) as Hnd.
        apply NoDup_app in Hnd as (_ & Hmid & Hnd).
        apply NoDup_cons in Hnd as (Hc_rest & _).
        pose proof (chain_suffix _ _ _ _ _ Hch1) as Hsuf.
        destruct (chain_cons_inv _ _ _ Hsuf) as (cj & Hc & Hcnext).
        simpl in Hc. rewrite Hc. simpl. rewrite Hn. simpl.
        assert (Hcn : c <> n).
        { intros ->. apply Hfresh. rewrite Heq.
          apply elem_of_app. right. left. }
        rewrite list_lookup_insert_ne by congruence. rewrite Hc.
        eexists _, (mid ++ [c]), rest. split; [reflexivity|].
        simpl. split_all.
        -- rewrite Heq, <- app_assoc. reflexivity.
        -- rewrite <- app_assoc. simpl.
           eapply chain_relink; [exact Hch1| | |].
           ++ intros a Ha.
              rewrite !list_lookup_insert_ne; [reflexivity| |].
              ** intros ->. apply Hfresh. rewrite Heq.
                 apply elem_of_app. left. exact Ha.
              ** intros ->. apply (Hmid a Ha). left.
           ++ apply list_lookup_insert_eq. rewrite length_insert.
              eapply lookup_lt_Some. exact Hc.
           ++ simpl. econstructor.
              ** rewrite list_lookup_insert_ne by congruence.
                 apply list_lookup_insert_eq.
                 eapply lookup_lt_Some. exact Hn.
              ** simpl. apply chain_insert_outside; [|exact Hc_rest].
                 apply chain_insert_outside; [exact Hcnext|].
                 intros Hin. apply Hfresh. rewrite Heq.
                 apply elem_of_app. right. right. exact Hin.
        -- rewrite (payload_set_next _ _ cj)
             by (rewrite list_lookup_insert_ne by congruence; exact Hc).
           rewrite (payload_set_next _ _ j0) by exact Hn. exact Hp0.
        -- rewrite Forall_forall in Hall |- *. intros l Hl.
           rewrite <- Hgrow; [apply Hall; exact Hl|].
           apply Hb. rewrite Heq.
           apply elem_of_app in Hl as [Hl|Hl].
           ++ apply elem_of_app. left. exact Hl.
           ++ apply list_elem_of_singleton in Hl as ->.
              apply elem_of_app. right. left.
        -- intros l post' ->. rewrite <- Hgrow; [eapply Hrest; eauto|].
           apply Hb. rewrite Heq. apply elem_of_app. right. right. left.
Qed.
End Enqueue.

(** ** Order of the chain *)

Section Order.
Implicit Types (f : loc -> Z) (ls pre post : list loc) (l n : loc).

Lemma StronglySorted_weaken {A : Type} (R R' : relation A) (xs : list A) :
  (forall x y, x ∈ xs -> y ∈ xs -> R x y -> R' x y) ->
  StronglySorted R xs -> StronglySorted R' xs.
Proof.
  intros Himp Hs. induction Hs as [|x xs Hs IH Hall]; constructor.
  - apply IH. intros a b Ha Hb. apply Himp; right; assumption.
  - rewrite Forall_forall in Hall |- *. intros y Hy.
    apply Himp; [left|right; exact Hy|apply Hall; exact Hy].
Qed.

(** Whatever follows a job of priority below [p] in a sorted chain has
    priority below [p] too. *)
Lemma before_below f p post :
  StronglySorted (before f) post ->
  (forall l post', post = l :: post' -> f l < p) ->
  Forall (fun l => f l < p) post.
Proof.
  intros Hs Hhd. destruct Hs as [|l post Hs Hall]; constructor.
  - eapply Hhd. reflexivity.
  - specialize (Hhd l post eq_refl).
    rewrite Forall_forall in Hall |- *. intros y Hy.
    destruct (Hall y Hy) as [Hlt|[Heq _]]; lia.
Qed.

(** Splicing the newest job in behind the leading run of priority at
    least its own keeps the chain in order. *)
Lemma before_splice f f' p n pre post :
  StronglySorted (before f) (pre ++ post) ->
  Forall (fun l => (l < n)%nat) (pre ++ post) ->
  (forall l, (l < n)%nat -> f' l = f l) ->
  f' n = p ->
  Forall (fun l => p <= f l) pre ->
  (forall l post', post = l :: post' -> f l < p) ->
  StronglySorted (before f') (pre ++ n :: post).
Proof.
  intros Hs Hb Hsame Hn Hpre Hpost.
  rewrite Forall_forall in Hb, Hpre.
  assert (Hs' : StronglySorted (before f') (pre ++ post)).
  { revert Hs. apply StronglySorted_weaken. intros x y Hx Hy.
    unfold before. rewrite !Hsame by (apply Hb; assumption). tauto. }
  apply StronglySorted_app in Hs as (_ & _ & Hs_post).
  pose proof (before_below f p post Hs_post Hpost) as Hlow.
  rewrite Forall_forall in Hlow.
  apply StronglySorted_app in Hs' as (Hcross & Hs_pre & Hs_post').
  apply StronglySorted_app. split_all.
  - intros x1 x2 Hx1 Hx2. apply elem_of_cons in Hx2 as [->|Hx2].
    + assert (Hx1n : (x1 < n)%nat)
        by (apply Hb, elem_of_app; left; exact Hx1).
      specialize (Hpre x1 Hx1). unfold before.
      rewrite Hn, Hsame by exact Hx1n.
      destruct (Z.eq_dec (f x1) p); [right; split; congruence|left; lia].
    + apply Hcross; assumption.
  - exact Hs_pre.
  - constructor; [exact Hs_post'|].
    rewrite Forall_forall. intros y Hy. left.
    rewrite Hn, Hsame by (apply Hb, elem_of_app; right; exact Hy).
    apply Hlow. exact Hy.
Qed.

Lemma before_descending f ls :
  StronglySorted (before f) ls ->
  StronglySorted (fun a b => f b <= f a) ls.
Proof.
  apply StronglySorted_weaken. intros x y _ _ [H|[H _]]; lia.
Qed.

Lemma before_stable f ls :
  StronglySorted (before f) ls ->
  StronglySorted (fun a b => f a = f b -> (a < b)%nat) ls.
Proof.
  apply StronglySorted_weaken. intros x y _ _ [H|[_ H]] Heq; [lia|exact H].
Qed.
End Order.

(** ** The invariant along a run *)

Section Run.
Implicit Types (s : state) (ls : list loc) (o : op) (ops : list op).

Lemma ordered_init : ordered init [].
Proof. split; constructor. Qed.

Lemma enqueue_ordered s ls cmd prio :
  ordered s ls ->
  in_range prio MIN_PR (MAX_PR + 1) = true ->
  exists s' ls',
    enqueue cmd prio s = Ok tt s' /\
    ordered s' ls' /\
    payload (heap s') = payload (heap s) ++ [(cmd, prio)].
Proof.
  intros [Hch Hs] Hr.
  destruct (enqueue_spec s ls cmd prio Hch Hr)
    as (s' & pre & post & Hrun & -> & Hch' & Hpl & Hpre & Hpost).
  exists s', (pre ++ length (heap s) :: post).
  split; [exact Hrun|]. split; [|exact Hpl]. split; [exact Hch'|].
  apply (before_splice (prio_at (heap s)) _ prio); auto.
  - eapply chain_bound. exact Hch.
  - intros l Hl. eapply prio_at_grow; eauto.
  - eapply prio_at_new. exact Hpl.
Qed.

Lemma dequeue_ordered s ls :
  ordered s ls ->
  exists v s',
    dequeue s = Ok v s' /\ heap s' = heap s /\ ordered s' (tail ls).
Proof.
  intros [Hch Hs]. unfold queue_chain in Hch.
  destruct (head (self s)) as [l|] eqn:Hh.
  - destruct ls as [|l' ls]; [inversion Hch|].
    assert (l' = l) by (inversion Hch; reflexivity). subst l'.
    destruct (chain_cons_inv _ _ _ Hch) as (j & Hl & Hnext).
    eexists _, _. split; [apply (dequeue_head s l j Hh Hl)|].
    simpl. split; [reflexivity|]. split; [exact Hnext|].
    apply StronglySorted_cons in Hs as [_ Hs]. exact Hs.
  - inversion Hch; subst. exists None, s.
    split; [apply dequeue_empty; exact Hh|]. split; [reflexivity|].
    split; [unfold queue_chain; rewrite Hh; constructor|constructor].
Qed.

Lemma peek_total s ls :
  queue_chain s ls -> exists v, peek s = Ok v s.
Proof.
  unfold queue_chain. intros Hch.
  destruct (head (self s)) as [l|] eqn:Hh.
  - inversion Hch; subst. eexists. eapply peek_head; eassumption.
  - exists None. apply peek_empty. exact Hh.
Qed.

Lemma accepted_cons o ops : accepted (o :: ops) = accepted [o] ++ accepted ops.
Proof.
  destruct o as [cmd prio| | |]; simpl; try reflexivity.
  destruct (in_range prio MIN_PR (MAX_PR + 1)); reflexivity.
Qed.

Lemma step_ordered o s ls :
  ordered s ls ->
  exists s' ls',
    step o s = Some s' /\ ordered s' ls' /\
    payload (heap s') = payload (heap s) ++ accepted [o].
Proof.
  intros Hord. destruct o as [cmd prio| | |]; simpl.
  - destruct (in_range prio MIN_PR (MAX_PR + 1)) eqn:Hr.
    + destruct (enqueue_ordered s ls cmd prio Hord Hr)
        as (s' & ls' & -> & Hord' & Hpl).
      exists s', ls'. auto.
    + rewrite enqueue_invalid by exact Hr. exists s, ls.
      rewrite app_nil_r. auto.
  - destruct (dequeue_ordered s ls Hord) as (v & s' & -> & Hh & Hord').
    exists s', (tail ls). rewrite Hh, app_nil_r. auto.
  - destruct (peek_total s ls (proj1 Hord)) as (v & ->).
    exists s, ls. rewrite app_nil_r. auto.
  - exists s, ls. rewrite app_nil_r. auto.
Qed.

Lemma run_ordered ops :
  forall s ls,
    ordered s ls ->
    exists s' ls',
      run ops s = Some s' /\ ordered s' ls' /\
      payload (heap s') = payload (heap s) ++ accepted ops.
Proof.
  induction ops as [|o ops IH]; intros s ls Hord.
  - exists s, ls. simpl. rewrite app_nil_r. auto.
  - destruct (step_ordered o s ls Hord) as (s1 & ls1 & Hstep & Hord1 & Hpl1).
    destruct (IH s1 ls1 Hord1) as (s2 & ls2 & Hrun & Hord2 & Hpl2).
    exists s2, ls2. simpl. rewrite Hstep. split_all; auto.
    rewrite Hpl2, Hpl1, <- app_assoc, <- accepted_cons. reflexivity.
Qed.
End Run.

(** ** Stable insertion, on the jobs themselves *)

Section Stable.
Implicit Types (js jpre jpost cs : list (Command * Z)) (x : Command * Z).

Lemma descending_below p jpost :
  descending jpost ->
  (forall y jpost', jpost = y :: jpost' -> y.2 < p) ->
  Forall (fun y => y.2 < p) jpost.
Proof.
  intros Hs Hhd. destruct Hs as [|y jpost Hs Hall]; constructor.
  - eapply Hhd. reflexivity.
  - specialize (Hhd y jpost eq_refl).
    eapply Forall_impl; [exact Hall|]. simpl. intros z Hz. lia.
Qed.

Lemma with_priority_none p jpost :
  Forall (fun y => y.2 < p) jpost -> with_priority p jpost = [].
Proof.
  intros Hall. unfold with_priority.
  induction Hall as [|y jpost Hy _ IH]; [reflexivity|].
  rewrite filter_cons_False by lia. exact IH.
Qed.

Lemma descending_insert x jpre jpost :
  descending (jpre ++ jpost) ->
  Forall (fun y => x.2 <= y.2) jpre ->
  (forall y jpost', jpost = y :: jpost' -> y.2 < x.2) ->
  descending (jpre ++ x :: jpost).
Proof.
  unfold descending. intros Hs Hpre Hpost.
  apply StronglySorted_app in Hs as (Hcross & Hs_pre & Hs_post).
  pose proof (descending_below _ _ Hs_post Hpost) as Hlow.
  rewrite Forall_forall in Hpre, Hlow.
  apply StronglySorted_app. split_all.
  - intros y z Hy Hz. apply elem_of_cons in Hz as [->|Hz].
    + apply Hpre. exact Hy.
    + apply Hcross; assumption.
  - exact Hs_pre.
  - constructor; [exact Hs_post|].
    rewrite Forall_forall. intros z Hz. specialize (Hlow z Hz). lia.
Qed.

(** Within each priority, the inserted job comes last. *)
Lemma with_priority_insert q x jpre jpost :
  descending (jpre ++ jpost) ->
  (forall y jpost', jpost = y :: jpost' -> y.2 < x.2) ->
  with_priority q (jpre ++ x :: jpost) =
  with_priority q (jpre ++ jpost) ++ with_priority q [x].
Proof.
  intros Hs Hpost. unfold with_priority.
  rewrite !filter_app, filter_cons, <- app_assoc. f_equal.
  destruct (decide (x.2 = q)) as [Hq|Hq].
  - apply StronglySorted_app in Hs as (_ & _ & Hs_post).
    pose proof (descending_below _ _ Hs_post Hpost) as Hlow.
    apply with_priority_none in Hlow. unfold with_priority in Hlow.
    rewrite Hq in Hlow. rewrite Hlow.
    rewrite filter_cons_True by exact Hq. reflexivity.
  - rewrite filter_cons_False by exact Hq.
    rewrite filter_nil, app_nil_r. reflexivity.
Qed.

Lemma contents_app h ls1 ls2 :
  contents h (ls1 ++ ls2) = contents h ls1 ++ contents h ls2.
Proof. unfold contents. apply fmap_app. Qed.
End Stable.

Section EnqueueAll.
Implicit Types (s : state) (ls : list loc) (cs : list (Command * Z)).

Lemma enqueue_stably_sorted cs s ls cmd prio :
  stably_sorted cs s ls ->
  in_range prio MIN_PR (MAX_PR + 1) = true ->
  exists s' ls',
    enqueue cmd prio s = Ok tt s' /\
    stably_sorted (cs ++ [(cmd, prio)]) s' ls'.
Proof.
  intros (Hch & Hperm & Hdesc & Hstable) Hr.
  destruct (enqueue_spec s ls cmd prio Hch Hr)
    as (s' & pre & post & Hrun & -> & Hch' & Hpl & Hpre & Hpost).
  pose proof (chain_bound _ _ _ Hch) as Hb.
  apply Forall_app in Hb as [Hb_pre Hb_post].
  assert (Hc : contents (heap s') (pre ++ length (heap s) :: post) =
               contents (heap s) pre ++ (cmd, prio) :: contents (heap s) post).
  { rewrite contents_app. unfold contents at 2. rewrite fmap_cons.
    fold (contents (heap s') post).
    rewrite (contents_grow _ _ _ pre Hpl Hb_pre).
    rewrite (contents_grow _ _ _ post Hpl Hb_post).
    rewrite (cmd_at_new _ _ _ _ Hpl), (prio_at_new _ _ _ _ Hpl).
    reflexivity. }
  rewrite contents_app in Hperm, Hdesc, Hstable.
  assert (Hpre' : Forall (fun y => (cmd, prio).2 <= y.2)
                    (contents (heap s) pre)).
  { unfold contents. rewrite Forall_fmap.
    eapply Forall_impl; [exact Hpre|]. simpl. auto. }
  assert (Hpost' : forall y jpost',
             contents (heap s) post = y :: jpost' -> y.2 < (cmd, prio).2).
  { intros y jpost' Heq. destruct post as [|l post']; [discriminate|].
    unfold contents in Heq. rewrite fmap_cons in Heq.
    injection Heq as <- _. simpl. eapply Hpost. reflexivity. }
  exists s', (pre ++ length (heap s) :: post).
  split; [exact Hrun|]. split; [exact Hch'|]. rewrite Hc. split_all.
  - rewrite <- Hperm, <- Permutation_middle, Permutation_cons_append.
    reflexivity.
  - apply descending_insert; assumption.
  - intros p. rewrite with_priority_insert by assumption.
    rewrite Hstable. unfold with_priority. rewrite filter_app.
    reflexivity.
Qed.

Lemma enqueue_all_stably_sorted cs :
  forall cs0 s ls,
    stably_sorted cs0 s ls ->
    Forall (fun c => valid_priority c.2) cs ->
    exists s' ls',
      enqueue_all cs s = Ok tt s' /\ stably_sorted (cs0 ++ cs) s' ls'.
Proof.
  induction cs as [|[cmd prio] cs IH]; intros cs0 s ls Hss Hvalid.
  - exists s, ls. rewrite app_nil_r. auto.
  - apply Forall_cons in Hvalid as [Hv Hvalid]. simpl in Hv.
    apply in_range_valid in Hv.
    destruct (enqueue_stably_sorted cs0 s ls cmd prio Hss Hv)
      as (s1 & ls1 & Hrun1 & Hss1).
    destruct (IH _ s1 ls1 Hss1 Hvalid) as (s2 & ls2 & Hrun2 & Hss2).
    exists s2, ls2. split.
    + simpl. unfold bind. rewrite Hrun1. exact Hrun2.
    + rewrite <- app_assoc in Hss2. exact Hss2.
Qed.

Lemma stably_sorted_init : stably_sorted [] init [].
Proof.
  unfold stably_sorted, queue_chain. split_all.
  - constructor.
  - reflexivity.
  - constructor.
  - intros p. reflexivity.
Qed.

(** Dequeuing until the queue is empty returns the commands along the
    chain, head first. *)
Lemma drain_spec ls :
  forall s fuel,
    queue_chain s ls ->
    (length ls < fuel)%nat ->
    exists s',
      drain fuel s = Ok (Some <$> (contents (heap s) ls).*1) s' /\
      heap s' = heap s /\ head (self s') = None.
Proof.
  induction ls as [|l ls IH]; intros s fuel Hch Hfuel;
    (destruct fuel as [|fuel]; [simpl in Hfuel; lia|]);
    unfold queue_chain in Hch.
  - inversion Hch as [Hnone|]. exists s. split_all; auto.
    simpl. unfold bind. rewrite is_empty_spec, <- Hnone. reflexivity.
  - assert (Hh : head (self s) = Some l) by (inversion Hch; reflexivity).
    rewrite Hh in Hch.
    destruct (chain_cons_inv _ _ _ Hch) as (j & Hl & Hnext).
    destruct (IH (mkState (heap s) (mkPriorityQueue (next j))) fuel)
      as (s' & Hrun & Hheap & Hhead).
    + exact Hnext.
    + simpl in Hfuel. lia.
    + exists s'. split_all; auto.
      simpl. unfold bind. rewrite is_empty_spec, Hh. simpl.
      rewrite (dequeue_head s l j Hh Hl), Hrun. simpl.
      unfold cmd_at. rewrite Hl. reflexivity.
Qed.
End EnqueueAll.

(** ** The sample queue and the driver, by evaluation *)

Example sample_built :
  enqueue_all [("a", 5); ("b", 7); ("c", 5)] init = Ok tt sample.
Proof. vm_compute. reflexivity. Qed.

Example sample_read :
  read_chain 3 (heap sample) (head (self sample)) = Some [1; 0; 2]%nat.
Proof. vm_compute. reflexivity. Qed.

Example sample_contents :
  contents (heap sample) [1; 0; 2]%nat = [("b", 7); ("a", 5); ("c", 5)].
Proof. vm_compute. reflexivity. Qed.

(** The assertion that ends [answer4] holds. *)
Example answer4_runs : returned (answer4 init) = Some expected.
Proof. vm_compute. reflexivity. Qed.

(** The driver skips an empty command: [if comm:] is false for it. *)
Example dequeue_loop_skips_empty :
  returned ((let! _ := enqueue "" 5 in dequeue_loop 1 []) init) = Some [].
Proof. vm_compute. reflexivity. Qed.

(** * The claims *)

(** C1: (1) after any sequence of [enqueue] calls with valid priorities on
    a fresh queue, every call has returned, and the chain read from head to
    tail holds the enqueued jobs in non-increasing priority, the jobs of
    each priority in the order they were enqueued in.
    (2) The invariant holds around every operation: whatever the caller
    does with a fresh queue (enqueue with any priority, dequeue, peek,
    is_empty, in any order), every call returns or raises, and afterwards
    the chain has non-increasing priorities, and of two jobs of equal
    priority the one enqueued first comes first.  References count the
    accepted enqueue calls: the heap holds, in call order, exactly the jobs
    of the enqueue calls with a valid priority, so [a < b] says that [a]
    was enqueued before [b]. *)
Theorem chain_stays_stable_descending :
  (forall cs : list (Command * Z),
     Forall (fun c => valid_priority c.2) cs ->
     exists s ls,
       enqueue_all cs init = Ok tt s /\
       queue_chain s ls /\
       contents (heap s) ls ≡ₚ cs /\
       descending (contents (heap s) ls) /\
       forall p,
         with_priority p (contents (heap s) ls) = with_priority p cs) /\
  (forall ops : list op,
     exists s ls,
       run ops init = Some s /\
       queue_chain s ls /\
       payload (heap s) = accepted ops /\
       StronglySorted
         (fun a b => prio_at (heap s) b <= prio_at (heap s) a) ls /\
       StronglySorted
         (fun a b => prio_at (heap s) a = prio_at (heap s) b -> (a < b)%nat)
         ls).
Proof.
  split.
  - intros cs Hvalid.
    destruct (enqueue_all_stably_sorted cs [] init [] stably_sorted_init
                Hvalid) as (s & ls & Hrun & Hss).
    exists s, ls. split; [exact Hrun|exact Hss].
  - intros ops.
    destruct (run_ordered ops init [] ordered_init)
      as (s & ls & Hrun & [Hch Hs] & Hpl).
    exists s, ls. split_all; auto.
    + apply before_descending. exact Hs.
    + apply before_stable. exact Hs.
Qed.

Lemma chain_stays_stable_descending_witness :
  Forall (fun c => valid_priority c.2) commands /\
  exists s ls,
    enqueue_all commands init = Ok tt s /\
    queue_chain s ls /\
    contents (heap s) ls ≡ₚ commands /\
    descending (contents (heap s) ls) /\
    forall p,
      with_priority p (contents (heap s) ls) = with_priority p commands.
Proof.
  assert (Hv : Forall (fun c => valid_priority c.2) commands)
    by (repeat constructor; vm_compute; discriminate).
  split; [exact Hv|].
  exact (proj1 chain_stays_stable_descending commands Hv).
Defined.

(** C2: after enqueueing the jobs [cs] (valid priorities) into a fresh
    queue, dequeuing until the queue is empty returns the commands of a
    list [js] that is a permutation of [cs], is in descending order of
    priority, and has the jobs of each priority in the order of [cs]. *)
Theorem drain_returns_stable_sort (cs : list (Command * Z)) (fuel : nat) :
  Forall (fun c => valid_priority c.2) cs ->
  (length cs < fuel)%nat ->
  exists s1 s2 js,
    enqueue_all cs init = Ok tt s1 /\
    drain fuel s1 = Ok (Some <$> js.*1) s2 /\
    is_empty s2 = Ok true s2 /\
    js.*1 ≡ₚ cs.*1 /\
    js ≡ₚ cs /\
    descending js /\
    forall p, with_priority p js = with_priority p cs.
Proof.
  intros Hvalid Hfuel.
  destruct (enqueue_all_stably_sorted cs [] init [] stably_sorted_init Hvalid)
    as (s1 & ls & Hrun & Hch & Hperm & Hdesc & Hstable).
  simpl in Hperm, Hstable.
  destruct (drain_spec ls s1 fuel Hch) as (s2 & Hdrain & _ & Hhead).
  - apply Permutation_length in Hperm. unfold contents in Hperm.
    rewrite length_fmap in Hperm. lia.
  - exists s1, s2, (contents (heap s1) ls). split_all; auto.
    + rewrite is_empty_spec, Hhead. reflexivity.
    + rewrite Hperm. reflexivity.
Qed.

Lemma drain_returns_stable_sort_witness :
  Forall (fun c => valid_priority c.2) commands /\
  (length commands < 11)%nat /\
  exists s1 s2 js,
    enqueue_all commands init = Ok tt s1 /\
    drain 11 s1 = Ok (Some <$> js.*1) s2 /\
    is_empty s2 = Ok true s2 /\
    js.*1 ≡ₚ commands.*1 /\
    js ≡ₚ commands /\
    descending js /\
    forall p, with_priority p js = with_priority p commands.
Proof.
  assert (Hv : Forall (fun c => valid_priority c.2) commands)
    by (repeat constructor; vm_compute; discriminate).
  assert (Hf : (length commands < 11)%nat) by (simpl; lia).
  split; [exact Hv|]. split; [exact Hf|].
  exact (drain_returns_stable_sort commands 11 Hv Hf).
Defined.

(** C3: the ten jobs of the driver, enqueued in its order into a fresh
    queue, come out of ten [dequeue] calls as lmy, rwa, aou, zbe, swc, ytm,
    slg, uuv, jtc, zln, the queue is empty afterwards, and the driver's own
    loop collects the same list. *)
Theorem scenario_dequeue_order :
  exists s1 s2,
    enqueue_all commands init = Ok tt s1 /\
    repeat_call dequeue 10 s1 = Ok (Some <$> expected) s2 /\
    is_empty s2 = Ok true s2 /\
    returned (answer4 init) = Some expected.
Proof.
  eexists _, _. split_all.
  - vm_compute. reflexivity.
  - vm_compute. reflexivity.
  - reflexivity.
  - vm_compute. reflexivity.
Qed.

(** C4: on a well-formed queue, [enqueue] raises exactly when the priority
    is below 0 or above 10, and returns exactly when it is in [0, 10]; the
    job it then constructs carries the priority as given.  So -1 and 11
    raise, 0 and 10 are accepted. *)
Theorem enqueue_rejects_exactly_out_of_range
  (s : state) (ls : list loc) (cmd : Command) (prio : Z) :
  queue_chain s ls ->
  ((exists e s', enqueue cmd prio s = Raise e s') <-> (prio < 0 \/ 10 < prio)) /\
  ((exists s', enqueue cmd prio s = Ok tt s' /\
               payload (heap s') = payload (heap s) ++ [(cmd, prio)])
   <-> 0 <= prio <= 10) /\
  (exists e s', enqueue cmd (-1) s = Raise e s') /\
  (exists e s', enqueue cmd 11 s = Raise e s') /\
  (exists s', enqueue cmd 0 s = Ok tt s') /\
  (exists s', enqueue cmd 10 s = Ok tt s').
Proof.
  intros Hch.
  assert (Hok : forall p, 0 <= p <= 10 ->
            exists s', enqueue cmd p s = Ok tt s' /\
                       payload (heap s') = payload (heap s) ++ [(cmd, p)]).
  { intros p Hp. apply in_range_valid in Hp.
    destruct (enqueue_spec s ls cmd p Hch Hp)
      as (s' & pre & post & Hrun & _ & _ & Hpl & _).
    exists s'. auto. }
  assert (Hbad : forall p, p < 0 \/ 10 < p ->
            exists e s', enqueue cmd p s = Raise e s').
  { intros p Hp. apply in_range_invalid in Hp.
    eexists _, s. apply enqueue_invalid. exact Hp. }
  split_all.
  - split; [|apply Hbad].
    intros (e & s' & Hrun).
    destruct (Z_le_dec 0 prio); [|lia].
    destruct (Z_le_dec prio 10); [|lia].
    destruct (Hok prio) as (s'' & Hrun' & _); [lia|congruence].
  - split; [|apply Hok].
    intros (s' & Hrun & _).
    destruct (Z_lt_dec prio 0) as [Hlt|]; [|destruct (Z_lt_dec 10 prio)];
      [| |lia].
    + destruct (Hbad prio) as (e & s'' & Hrun'); [lia|congruence].
    + destruct (Hbad prio) as (e & s'' & Hrun'); [lia|congruence].
  - apply Hbad. lia.
  - apply Hbad. lia.
  - destruct (Hok 0) as (s' & Hrun & _); [lia|eauto].
  - destruct (Hok 10) as (s' & Hrun & _); [lia|eauto].
Qed.

Lemma enqueue_rejects_exactly_out_of_range_witness :
  queue_chain sample [1; 0; 2]%nat /\
  ((exists e s', enqueue "d" 11 sample = Raise e s') <-> (11 < 0 \/ 10 < 11)) /\
  ((exists s', enqueue "d" 11 sample = Ok tt s' /\
               payload (heap s') = payload (heap sample) ++ [("d", 11)])
   <-> 0 <= 11 <= 10) /\
  (exists e s', enqueue "d" (-1) sample = Raise e s') /\
  (exists e s', enqueue "d" 11 sample = Raise e s') /\
  (exists s', enqueue "d" 0 sample = Ok tt s') /\
  (exists s', enqueue "d" 10 sample = Ok tt s').
Proof.
  assert (Hch : queue_chain sample [1; 0; 2]%nat)
    by (apply (read_chain_sound 3); reflexivity).
  split; [exact Hch|].
  exact (enqueue_rejects_exactly_out_of_range sample [1; 0; 2]%nat "d" 11 Hch).
Defined.

(** C5: an [enqueue] with a priority outside [0, 10] raises in the very
    state it was called in: heap and head are untouched, so the chain and
    the answer of [is_empty] are what they were. *)
Theorem failed_enqueue_leaves_state (s : state) (cmd : Command) (prio : Z) :
  prio < MIN_PR \/ MAX_PR < prio ->
  exists e s',
    enqueue cmd prio s = Raise e s' /\
    s' = s /\
    heap s' = heap s /\
    head (self s') = head (self s) /\
    is_empty s' = is_empty s /\
    forall ls, queue_chain s' ls <-> queue_chain s ls.
Proof.
  intros Hp. apply in_range_invalid in Hp.
  eexists _, s. split; [apply enqueue_invalid; exact Hp|].
  split_all; reflexivity.
Qed.

Lemma failed_enqueue_leaves_state_witness :
  (11 < MIN_PR \/ MAX_PR < 11) /\
  exists e s',
    enqueue "d" 11 sample = Raise e s' /\
    s' = sample /\
    heap s' = heap sample /\
    head (self s') = head (self sample) /\
    is_empty s' = is_empty sample /\
    forall ls, queue_chain s' ls <-> queue_chain sample ls.
Proof.
  assert (Hp : 11 < MIN_PR \/ MAX_PR < 11) by (right; reflexivity).
  split; [exact Hp|].
  exact (failed_enqueue_leaves_state sample "d" 11 Hp).
Defined.

Lemma repeat_peek (s : state) (v : option Command) (n : nat) :
  peek s = Ok v s -> repeat_call peek n s = Ok (replicate n v) s.
Proof.
  intros Hpeek. induction n as [|n IH]; [reflexivity|].
  simpl. unfold bind at 1. rewrite Hpeek.
  unfold bind at 1. rewrite IH. reflexivity.
Qed.

(** C6: on a well-formed queue, any number of [peek] calls in a row all
    return the same value and leave the state (heap and head, hence the
    chain) exactly as it was; [is_empty] and [dequeue] called after them
    do what they would have done without them. *)
Theorem peek_idempotent (s : state) (ls : list loc) (n : nat) :
  queue_chain s ls ->
  exists v,
    peek s = Ok v s /\
    repeat_call peek n s = Ok (replicate n v) s /\
    (let! _ := repeat_call peek n in is_empty) s = is_empty s /\
    (let! _ := repeat_call peek n in dequeue) s = dequeue s.
Proof.
  intros Hch. destruct (peek_total s ls Hch) as (v & Hpeek).
  pose proof (repeat_peek s v n Hpeek) as Hn.
  exists v. split_all; auto.
  - unfold bind at 1. rewrite Hn. reflexivity.
  - unfold bind at 1. rewrite Hn. reflexivity.
Qed.

Lemma peek_idempotent_witness :
  queue_chain sample [1; 0; 2]%nat /\
  exists v,
    peek sample = Ok v sample /\
    repeat_call peek 4 sample = Ok (replicate 4 v) sample /\
    (let! _ := repeat_call peek 4 in is_empty) sample = is_empty sample /\
    (let! _ := repeat_call peek 4 in dequeue) sample = dequeue sample.
Proof.
  assert (Hch : queue_chain sample [1; 0; 2]%nat)
    by (apply (read_chain_sound 3); reflexivity).
  split; [exact Hch|].
  exact (peek_idempotent sample [1; 0; 2]%nat 4 Hch).
Defined.

(** C7: on a freshly constructed queue [is_empty] returns true, and
    [dequeue] and [peek] return [None] without raising and without
    changing the state. *)
Theorem fresh_queue_is_empty :
  is_empty init = Ok true init /\
  dequeue init = Ok None init /\
  peek init = Ok None init.
Proof. split_all; reflexivity. Qed.

(** C8: on a well-formed queue that is not empty, [dequeue] returns the
    command of the head job and sets [head] to that job's [next]; the heap
    is untouched, so the chain afterwards is the old chain without its
    first element. *)
Theorem dequeue_detaches_head (s : state) (ls : list loc) :
  queue_chain s ls ->
  is_empty s = Ok false s ->
  exists l j rest s',
    ls = l :: rest /\
    head (self s) = Some l /\
    heap s !! l = Some j /\
    dequeue s = Ok (Some (command j)) s' /\
    head (self s') = next j /\
    heap s' = heap s /\
    queue_chain s' rest.
Proof.
  unfold queue_chain. intros Hch Hne.
  rewrite is_empty_spec in Hne.
  destruct (head (self s)) as [l|] eqn:Hh; [|discriminate].
  destruct ls as [|l' rest]; [inversion Hch|].
  assert (l' = l) by (inversion Hch; reflexivity). subst l'.
  destruct (chain_cons_inv _ _ _ Hch) as (j & Hl & Hnext).
  exists l, j, rest, (mkState (heap s) (mkPriorityQueue (next j))).
  split_all; auto.
  apply (dequeue_head s l j Hh Hl).
Qed.

Lemma dequeue_detaches_head_witness :
  queue_chain sample [1; 0; 2]%nat /\
  is_empty sample = Ok false sample /\
  exists l j rest s',
    [1; 0; 2]%nat = l :: rest /\
    head (self sample) = Some l /\
    heap sample !! l = Some j /\
    dequeue sample = Ok (Some (command j)) s' /\
    head (self s') = next j /\
    heap s' = heap sample /\
    queue_chain s' rest.
Proof.
  assert (Hch : queue_chain sample [1; 0; 2]%nat)
    by (apply (read_chain_sound 3); reflexivity).
  assert (Hne : is_empty sample = Ok false sample) by reflexivity.
  split; [exact Hch|]. split; [exact Hne|].
  exact (dequeue_detaches_head sample [1; 0; 2]%nat Hch Hne).
Defined.

(** C9: on a well-formed queue, [peek] returns the value that [dequeue]
    called in the same state returns, and leaves the state alone; on an
    empty queue that value is [None], otherwise it is a command. *)
Theorem peek_agrees_with_dequeue (s : state) (ls : list loc) :
  queue_chain s ls ->
  exists v s',
    peek s = Ok v s /\
    dequeue s = Ok v s' /\
    (ls = [] <-> v = None).
Proof.
  unfold queue_chain. intros Hch.
  destruct (head (self s)) as [l|] eqn:Hh.
  - destruct ls as [|l' rest]; [inversion Hch|].
    assert (l' = l) by (inversion Hch; reflexivity). subst l'.
    destruct (chain_cons_inv _ _ _ Hch) as (j & Hl & _).
    eexists _, _. split_all.
    + apply (peek_head s l j Hh Hl).
    + apply (dequeue_head s l j Hh Hl).
    + split; discriminate.
  - assert (ls = []) by (inversion Hch; reflexivity). subst ls.
    exists None, s. split_all.
    + apply peek_empty. exact Hh.
    + apply dequeue_empty. exact Hh.
    + split; reflexivity.
Qed.

Lemma peek_agrees_with_dequeue_witness :
  queue_chain sample [1; 0; 2]%nat /\
  exists v s',
    peek sample = Ok v sample /\
    dequeue sample = Ok v s' /\
    ([1; 0; 2]%nat = [] <-> v = None).
Proof.
  assert (Hch : queue_chain sample [1; 0; 2]%nat)
    by (apply (read_chain_sound 3); reflexivity).
  split; [exact Hch|].
  exact (peek_agrees_with_dequeue sample [1; 0; 2]%nat Hch).
Defined.

(** C10: on a well-formed queue, an [enqueue] with a valid priority
    returns; the chain afterwards is the old chain with one new object
    spliced in somewhere (so every old job is still there, in the old
    relative order, and the length has grown by one), the new object
    carries the given command and priority, and every old job has the
    command and priority it had. *)
Theorem enqueue_frame
  (s : state) (ls : list loc) (cmd : Command) (prio : Z) :
  queue_chain s ls ->
  valid_priority prio ->
  exists s' pre post new,
    enqueue cmd prio s = Ok tt s' /\
    ls = pre ++ post /\
    (new ∉ ls) /\
    queue_chain s' (pre ++ new :: post) /\
    length (pre ++ new :: post) = S (length ls) /\
    cmd_at (heap s') new = cmd /\
    prio_at (heap s') new = prio /\
    Forall (fun l => cmd_at (heap s') l = cmd_at (heap s) l /\
                     prio_at (heap s') l = prio_at (heap s) l) ls.
Proof.
  intros Hch Hv. apply in_range_valid in Hv.
  destruct (enqueue_spec s ls cmd prio Hch Hv)
    as (s' & pre & post & Hrun & Heq & Hch' & Hpl & _).
  pose proof (chain_bound _ _ _ Hch) as Hb.
  exists s', pre, post, (length (heap s)). split_all; auto.
  - rewrite Forall_forall in Hb. intros Hin. specialize (Hb _ Hin). lia.
  - rewrite Heq, !length_app. simpl. lia.
  - eapply cmd_at_new. exact Hpl.
  - eapply prio_at_new. exact Hpl.
  - eapply Forall_impl; [exact Hb|]. simpl. intros l Hl. split.
    + eapply cmd_at_grow; eauto.
    + eapply prio_at_grow; eauto.
Qed.

Lemma enqueue_frame_witness :
  queue_chain sample [1; 0; 2]%nat /\
  valid_priority 5 /\
  exists s' pre post new,
    enqueue "d" 5 sample = Ok tt s' /\
    [1; 0; 2]%nat = pre ++ post /\
    (new ∉ [1; 0; 2]%nat) /\
    queue_chain s' (pre ++ new :: post) /\
    length (pre ++ new :: post) = S (length [1; 0; 2]%nat) /\
    cmd_at (heap s') new = "d" /\
    prio_at (heap s') new = 5 /\
    Forall (fun l => cmd_at (heap s') l = cmd_at (heap sample) l /\
                     prio_at (heap s') l = prio_at (heap sample) l)
           [1; 0; 2]%nat.
Proof.
  assert (Hch : queue_chain sample [1; 0; 2]%nat)
    by (apply (read_chain_sound 3); reflexivity).
  assert (Hv : valid_priority 5) by (split; discriminate).
  split; [exact Hch|]. split; [exact Hv|].
  exact (enqueue_frame sample [1; 0; 2]%nat "d" 5 Hch Hv).
Defined.

(** * Further properties of the queue *)

(** ** Every state a caller can reach *)

Lemma run_reaches_ordered (ops : list op) (s : state) :
  run ops init = Some s ->
  exists ls, ordered s ls /\ payload (heap s) = accepted ops.
Proof.
  intros Hrun.
  destruct (run_ordered ops init [] ordered_init)
    as (s' & ls & Hrun' & Hord & Hpl).
  rewrite Hrun in Hrun'. injection Hrun' as <-.
  exists ls. split; [exact Hord|exact Hpl].
Qed.

Lemma chain_head (h : list Job) (hd : option loc) (ls : list loc) :
  chain h hd ls -> hd = list.head ls.
Proof. destruct 1; reflexivity. Qed.

Lemma peek_chain (s : state) (l : loc) (rest : list loc) :
  queue_chain s (l :: rest) -> peek s = Ok (Some (cmd_at (heap s) l)) s.
Proof.
  unfold queue_chain. intros Hch.
  pose proof (chain_head _ _ _ Hch) as Hh. simpl in Hh.
  rewrite Hh in Hch. destruct (chain_cons_inv _ _ _ Hch) as (j & Hl & _).
  rewrite (peek_head s l j Hh Hl). unfold cmd_at. rewrite Hl. reflexivity.
Qed.

Lemma dequeue_chain (s : state) (l : loc) (rest : list loc) :
  queue_chain s (l :: rest) ->
  exists s',
    dequeue s = Ok (Some (cmd_at (heap s) l)) s' /\
    heap s' = heap s /\ queue_chain s' rest.
Proof.
  unfold queue_chain. intros Hch.
  pose proof (chain_head _ _ _ Hch) as Hh. simpl in Hh.
  rewrite Hh in Hch. destruct (chain_cons_inv _ _ _ Hch) as (j & Hl & Hn).
  exists (mkState (heap s) (mkPriorityQueue (next j))).
  split; [|split; [reflexivity|exact Hn]].
  rewrite (dequeue_head s l j Hh Hl). unfold cmd_at. rewrite Hl. reflexivity.
Qed.

Lemma dequeue_nil (s : state) :
  queue_chain s [] -> dequeue s = Ok None s.
Proof.
  unfold queue_chain. intros Hch. apply dequeue_empty.
  apply (chain_head _ _ _ Hch).
Qed.

(** X1: in every state a caller can reach from a fresh queue, [peek] and
    [dequeue] return the command of a job of highest priority in the
    queue, and among the jobs of that priority the one enqueued first:
    every other queued job has a lower priority, or the same priority and
    a later reference. *)
Theorem dequeue_returns_highest_priority (ops : list op) (s : state) :
  run ops init = Some s ->
  exists ls v s',
    queue_chain s ls /\
    peek s = Ok v s /\
    dequeue s = Ok v s' /\
    queue_chain s' (tail ls) /\
    match ls with
    | [] => v = None
    | l :: rest =>
        v = Some (cmd_at (heap s) l) /\
        Forall (before (prio_at (heap s)) l) rest
    end.
Proof.
  intros Hrun.
  destruct (run_reaches_ordered ops s Hrun) as (ls & [Hch Hs] & _).
  destruct ls as [|l rest].
  - exists [], None, s. split_all; auto.
    + apply peek_empty. apply (chain_head _ _ _ Hch).
    + apply dequeue_nil. exact Hch.
  - destruct (dequeue_chain s l rest Hch) as (s' & Hdq & _ & Hch').
    exists (l :: rest), (Some (cmd_at (heap s) l)), s'. split_all; auto.
    + apply (peek_chain s l rest Hch).
    + apply StronglySorted_cons in Hs as [Hall _]. exact Hall.
Qed.

Lemma dequeue_returns_highest_priority_witness :
  run [Enqueue "a" 5; Enqueue "b" 7; Enqueue "c" 5] init = Some sample /\
  exists ls v s',
    queue_chain sample ls /\
    peek sample = Ok v sample /\
    dequeue sample = Ok v s' /\
    queue_chain s' (tail ls) /\
    match ls with
    | [] => v = None
    | l :: rest =>
        v = Some (cmd_at (heap sample) l) /\
        Forall (before (prio_at (heap sample)) l) rest
    end.
Proof.
  assert (Hrun : run [Enqueue "a" 5; Enqueue "b" 7; Enqueue "c" 5] init
                 = Some sample) by (vm_compute; reflexivity).
  split; [exact Hrun|].
  exact (dequeue_returns_highest_priority _ sample Hrun).
Defined.

Lemma accepted_valid (ops : list op) :
  Forall (fun c => valid_priority c.2) (accepted ops).
Proof.
  induction ops as [|[cmd prio| | |] ops IH]; simpl; auto.
  destruct (in_range prio MIN_PR (MAX_PR + 1)) eqn:Hr; [|exact IH].
  constructor; [|exact IH]. apply in_range_valid. exact Hr.
Qed.

(** X2: no job with a priority outside [0, 10] ever exists: in every state
    a caller can reach from a fresh queue, every [Job] constructed so far
    (queued or already dequeued) has a priority in range, whatever
    priorities the caller tried to enqueue. *)
Theorem stored_priorities_in_range (ops : list op) (s : state) :
  run ops init = Some s ->
  Forall (fun j => MIN_PR <= priority j <= MAX_PR) (heap s) /\
  exists ls,
    queue_chain s ls /\
    Forall (fun l => MIN_PR <= prio_at (heap s) l <= MAX_PR) ls.
Proof.
  intros Hrun.
  destruct (run_reaches_ordered ops s Hrun) as (ls & [Hch _] & Hpl).
  pose proof (accepted_valid ops) as Hv. rewrite <- Hpl in Hv.
  unfold payload in Hv. rewrite Forall_fmap in Hv.
  assert (Hheap : Forall (fun j => MIN_PR <= priority j <= MAX_PR) (heap s))
    by (eapply Forall_impl; [exact Hv|]; simpl; auto).
  split; [exact Hheap|]. exists ls. split; [exact Hch|].
  pose proof (chain_bound _ _ _ Hch) as Hb.
  rewrite Forall_forall in Hb. rewrite Forall_forall in Hheap.
  rewrite Forall_forall.
  intros l Hl. destruct (lookup_lt_is_Some_2 _ _ (Hb l Hl)) as [j Hj].
  unfold prio_at. rewrite Hj. simpl. apply Hheap.
  apply list_elem_of_lookup. eauto.
Qed.

Lemma stored_priorities_in_range_witness :
  run [Enqueue "a" 5; Enqueue "z" 11; Enqueue "b" 7; Enqueue "y" (-1);
       Enqueue "c" 5] init = Some sample /\
  Forall (fun j => MIN_PR <= priority j <= MAX_PR) (heap sample) /\
  exists ls,
    queue_chain sample ls /\
    Forall (fun l => MIN_PR <= prio_at (heap sample) l <= MAX_PR) ls.
Proof.
  assert (Hrun : run [Enqueue "a" 5; Enqueue "z" 11; Enqueue "b" 7;
                      Enqueue "y" (-1); Enqueue "c" 5] init = Some sample)
    by (vm_compute; reflexivity).
  split; [exact Hrun|].
  exact (stored_priorities_in_range _ sample Hrun).
Defined.

(** ** Nothing is lost, nothing comes out twice *)

Lemma cmd_at_seq (h : list Job) :
  cmd_at h <$> seq 0 (length h) = (payload h).*1.
Proof.
  apply list_eq. intros i. unfold payload.
  rewrite !list_lookup_fmap.
  destruct (decide (i < length h)%nat) as [Hlt|Hge].
  - rewrite lookup_seq_lt by exact Hlt. simpl.
    destruct (lookup_lt_is_Some_2 _ _ Hlt) as [j Hj].
    unfold cmd_at. rewrite Hj. reflexivity.
  - rewrite lookup_seq_ge by lia.
    rewrite (lookup_ge_None_2 h i) by lia. reflexivity.
Qed.

Lemma accounted_init : accounted init [] [].
Proof.
  split; [constructor|]. exists []. split; reflexivity.
Qed.

Lemma step_out_accounted (o : op) (s : state) (ls : list loc)
  (out0 : list Command) :
  accounted s ls out0 ->
  exists s' ls' out,
    step_out o s = Some (s', out) /\
    step o s = Some s' /\
    accounted s' ls' (out0 ++ out) /\
    payload (heap s') = payload (heap s) ++ accepted [o].
Proof.
  intros (Hch & gone & Hperm & Hout).
  assert (Hsame : accounted s ls out0)
    by (split; [exact Hch|exists gone; auto]).
  destruct o as [cmd prio| | |].
  - unfold step_out. simpl.
    destruct (in_range prio MIN_PR (MAX_PR + 1)) eqn:Hr.
    + destruct (enqueue_spec s ls cmd prio Hch Hr)
        as (s' & pre & post & Hrun & -> & Hch' & Hpl & _).
      rewrite Hrun. simpl.
      exists s', (pre ++ length (heap s) :: post), [].
      split_all; auto. rewrite app_nil_r.
      split; [exact Hch'|]. exists gone.
      assert (Hlen : length (heap s') = S (length (heap s))).
      { apply (f_equal length) in Hpl.
        rewrite length_app, !payload_length in Hpl. simpl in Hpl. lia. }
      split.
      * rewrite Hlen, seq_S. simpl.
        rewrite app_assoc, <- Permutation_middle, <- app_assoc, Hperm.
        apply Permutation_cons_append.
      * rewrite Hout. apply list_fmap_ext. intros i l Hl.
        symmetry. eapply cmd_at_grow; [exact Hpl|].
        assert (Hin : l ∈ seq 0 (length (heap s))).
        { rewrite <- Hperm. apply elem_of_app. left.
          apply list_elem_of_lookup. eauto. }
        apply elem_of_seq in Hin. lia.
    + rewrite enqueue_invalid by exact Hr. simpl.
      exists s, ls, []. rewrite !app_nil_r. auto.
  - simpl. destruct ls as [|l rest].
    + rewrite (dequeue_nil s Hch). simpl.
      exists s, [], []. rewrite !app_nil_r. auto.
    + destruct (dequeue_chain s l rest Hch) as (s' & Hdq & Hheap & Hch').
      rewrite Hdq. simpl. exists s', rest, [cmd_at (heap s) l].
      split_all; auto.
      * split; [exact Hch'|]. exists (gone ++ [l]). rewrite Hheap. split.
        -- rewrite <- app_assoc. simpl. exact Hperm.
        -- rewrite fmap_app, Hout. reflexivity.
      * rewrite Hheap, app_nil_r. reflexivity.
  - unfold step_out. simpl.
    destruct (peek_total s ls Hch) as (v & ->). simpl.
    exists s, ls, []. rewrite !app_nil_r. auto.
  - unfold step_out. simpl. exists s, ls, []. rewrite !app_nil_r. auto.
Qed.

Lemma run_out_accounted (ops : list op) :
  forall s ls out0,
    accounted s ls out0 ->
    exists s' ls' out,
      run_out ops s = Some (s', out) /\
      run ops s = Some s' /\
      accounted s' ls' (out0 ++ out) /\
      payload (heap s') = payload (heap s) ++ accepted ops.
Proof.
  induction ops as [|o ops IH]; intros s ls out0 Hacc.
  - exists s, ls, []. simpl. rewrite !app_nil_r. auto.
  - destruct (step_out_accounted o s ls out0 Hacc)
      as (s1 & ls1 & out1 & Hso & Hst & Hacc1 & Hpl1).
    destruct (IH s1 ls1 (out0 ++ out1) Hacc1)
      as (s2 & ls2 & out2 & Hro & Hr & Hacc2 & Hpl2).
    exists s2, ls2, (out1 ++ out2). simpl.
    rewrite Hso, Hro, Hst, Hr. split_all; auto.
    + rewrite app_assoc. exact Hacc2.
    + rewrite Hpl2, Hpl1, <- app_assoc, <- accepted_cons. reflexivity.
Qed.

(** X3: along any run from a fresh queue no job is lost and none comes out
    twice: the commands handed back by the [dequeue] calls so far, together
    with the commands still on the chain, are exactly the commands of the
    accepted [enqueue] calls (as multisets), and the chain visits no
    object twice. *)
Theorem dequeued_and_queued_are_the_enqueued (ops : list op) :
  exists s ls out,
    run_out ops init = Some (s, out) /\
    run ops init = Some s /\
    queue_chain s ls /\
    NoDup ls /\
    out ++ (contents (heap s) ls).*1 ≡ₚ (accepted ops).*1.
Proof.
  destruct (run_out_accounted ops init [] [] accounted_init)
    as (s & ls & out & Hro & Hr & (Hch & gone & Hperm & Hout) & Hpl).
  exists s, ls, out. split_all; auto.
  - eapply chain_NoDup. exact Hch.
  - simpl in Hout, Hpl. rewrite <- Hpl, <- cmd_at_seq, <- Hperm, fmap_app.
    rewrite Hout. unfold contents. rewrite <- list_fmap_compose.
    reflexivity.
Qed.

(** ** Dequeuing again and again *)

Lemma repeat_dequeue_spec (n : nat) :
  forall s ls,
    queue_chain s ls ->
    exists s',
      repeat_call dequeue n s =
        Ok ((Some <$> (cmd_at (heap s) <$> take n ls)) ++
            replicate (n - length ls) None) s' /\
      heap s' = heap s /\
      queue_chain s' (drop n ls).
Proof.
  induction n as [|n IH]; intros s ls Hch.
  - exists s. rewrite take_0, drop_0. auto.
  - destruct ls as [|l rest].
    + destruct (IH s [] Hch) as (s' & Hrun & Hheap & Hch').
      rewrite drop_nil in Hch'. rewrite take_nil, Nat.sub_0_r in Hrun.
      exists s'. split; [|split; [exact Hheap|exact Hch']].
      simpl. unfold bind at 1. rewrite (dequeue_nil s Hch).
      unfold bind at 1. rewrite Hrun. reflexivity.
    + destruct (dequeue_chain s l rest Hch) as (s1 & Hdq & Hheap1 & Hch1).
      destruct (IH s1 rest Hch1) as (s' & Hrun & Hheap & Hch').
      exists s'. split; [|split; [congruence|exact Hch']].
      simpl. unfold bind at 1. rewrite Hdq.
      unfold bind at 1. rewrite Hrun, Hheap1. reflexivity.
Qed.

(** X4: [n] calls of [dequeue] in a row on a well-formed queue return the
    commands of the first [n] jobs of the chain, head first, and then
    [None] for every call beyond the end; the heap is untouched and the
    chain is left without its first [n] jobs.  So dequeuing an empty
    queue, any number of times, returns [None] and changes nothing. *)
Theorem repeated_dequeue (s : state) (ls : list loc) (n : nat) :
  queue_chain s ls ->
  exists s',
    repeat_call dequeue n s =
      Ok ((Some <$> (cmd_at (heap s) <$> take n ls)) ++
          replicate (n - length ls) None) s' /\
    heap s' = heap s /\
    queue_chain s' (drop n ls).
Proof. apply repeat_dequeue_spec. Qed.

Lemma repeated_dequeue_witness :
  queue_chain sample [1; 0; 2]%nat /\
  exists s',
    repeat_call dequeue 5 sample =
      Ok ((Some <$> (cmd_at (heap sample) <$> take 5 [1; 0; 2]%nat)) ++
          replicate (5 - length [1; 0; 2]%nat) None) s' /\
    heap s' = heap sample /\
    queue_chain s' (drop 5 [1; 0; 2]%nat).
Proof.
  assert (Hch : queue_chain sample [1; 0; 2]%nat)
    by (apply (read_chain_sound 3); reflexivity).
  split; [exact Hch|].
  exact (repeated_dequeue sample [1; 0; 2]%nat 5 Hch).
Defined.

Lemma dequeue_loop_spec (n : nat) :
  forall s ls acc,
    queue_chain s ls ->
    exists s',
      dequeue_loop n acc s =
        Ok (acc ++ kept (cmd_at (heap s) <$> take n ls)) s' /\
      heap s' = heap s /\
      queue_chain s' (drop n ls).
Proof.
  induction n as [|n IH]; intros s ls acc Hch.
  - exists s. rewrite take_0, drop_0. simpl. rewrite app_nil_r. auto.
  - destruct ls as [|l rest].
    + destruct (IH s [] acc Hch) as (s' & Hrun & Hheap & Hch').
      rewrite drop_nil in Hch'. rewrite take_nil in Hrun.
      exists s'. split; [|split; [exact Hheap|exact Hch']].
      simpl. unfold bind at 1. rewrite (dequeue_nil s Hch).
      rewrite Hrun. reflexivity.
    + destruct (dequeue_chain s l rest Hch) as (s1 & Hdq & Hheap1 & Hch1).
      simpl. unfold bind at 1. rewrite Hdq. unfold kept. simpl.
      destruct (negb (String.eqb (cmd_at (heap s) l) "")).
      * destruct (IH s1 rest (acc ++ [cmd_at (heap s) l]) Hch1)
          as (s' & Hrun & Hheap & Hch').
        exists s'. split; [|split; [congruence|exact Hch']].
        rewrite Hrun, Hheap1, <- app_assoc. reflexivity.
      * destruct (IH s1 rest acc Hch1) as (s' & Hrun & Hheap & Hch').
        exists s'. split; [|split; [congruence|exact Hch']].
        rewrite Hrun, Hheap1. reflexivity.
Qed.

(** X5: the driver's loop, run [n] times on a well-formed queue, appends to
    its list the commands of the first [n] jobs of the chain, head first,
    except those that are the empty string: [if comm:] drops them like the
    [None] of an empty queue.  Looping more often than there are jobs is
    harmless: the queue ends up empty and nothing more is appended. *)
Theorem dequeue_loop_keeps_nonempty
  (s : state) (ls : list loc) (n : nat) (acc : list Command) :
  queue_chain s ls ->
  exists s',
    dequeue_loop n acc s =
      Ok (acc ++ kept (cmd_at (heap s) <$> take n ls)) s' /\
    heap s' = heap s /\
    queue_chain s' (drop n ls).
Proof. apply dequeue_loop_spec. Qed.

Lemma dequeue_loop_keeps_nonempty_witness :
  queue_chain sample [1; 0; 2]%nat /\
  exists s',
    dequeue_loop 4 ["x"] sample =
      Ok (["x"] ++ kept (cmd_at (heap sample) <$> take 4 [1; 0; 2]%nat)) s' /\
    heap s' = heap sample /\
    queue_chain s' (drop 4 [1; 0; 2]%nat).
Proof.
  assert (Hch : queue_chain sample [1; 0; 2]%nat)
    by (apply (read_chain_sound 3); reflexivity).
  split; [exact Hch|].
  exact (dequeue_loop_keeps_nonempty sample [1; 0; 2]%nat 4 ["x"] Hch).
Defined.

(** ** How [enqueue] composes with [peek] and [dequeue] *)

Lemma enqueue_front_or_behind (s : state) (ls : list loc) (cmd : Command)
  (prio : Z) :
  queue_chain s ls ->
  in_range prio MIN_PR (MAX_PR + 1) = true ->
  exists s' rest',
    enqueue cmd prio s = Ok tt s' /\
    payload (heap s') = payload (heap s) ++ [(cmd, prio)] /\
    match ls with
    | [] => queue_chain s' [length (heap s)]
    | l :: rest =>
        if prio_at (heap s) l <? prio
        then queue_chain s' (length (heap s) :: l :: rest)
        else queue_chain s' (l :: rest')
    end.
Proof.
  intros Hch Hr.
  destruct (enqueue_spec s ls cmd prio Hch Hr)
    as (s' & pre & post & Hrun & Heq & Hch' & Hpl & Hpre & Hpost).
  destruct pre as [|l pre]; simpl in Heq, Hch'; subst ls.
  - exists s', []. split_all; auto.
    destruct post as [|l rest]; [exact Hch'|].
    specialize (Hpost l rest eq_refl).
    destruct (Z.ltb_spec (prio_at (heap s) l) prio); [exact Hch'|lia].
  - exists s', (pre ++ length (heap s) :: post). split_all; auto.
    apply Forall_cons in Hpre as [Hl _].
    destruct (Z.ltb_spec (prio_at (heap s) l) prio); [lia|exact Hch'].
Qed.

(** X6: after an [enqueue] with a valid priority on a well-formed queue,
    [is_empty] returns false, and [peek] returns the new command if the
    queue was empty or the new priority is strictly higher than the old
    head's; otherwise [peek] still returns the old head's command. *)
Theorem enqueue_changes_peek_only_when_higher
  (s : state) (ls : list loc) (cmd : Command) (prio : Z) :
  queue_chain s ls ->
  valid_priority prio ->
  exists s',
    enqueue cmd prio s = Ok tt s' /\
    is_empty s' = Ok false s' /\
    peek s' =
      Ok (Some match ls with
               | [] => cmd
               | l :: _ =>
                   if prio_at (heap s) l <? prio then cmd
                   else cmd_at (heap s) l
               end) s'.
Proof.
  intros Hch Hv. apply in_range_valid in Hv.
  destruct (enqueue_front_or_behind s ls cmd prio Hch Hv)
    as (s' & rest' & Hrun & Hpl & Hch').
  pose proof (chain_bound _ _ _ Hch) as Hb.
  exists s'. split; [exact Hrun|].
  assert (Hnew : forall rest, queue_chain s' (length (heap s) :: rest) ->
            is_empty s' = Ok false s' /\ peek s' = Ok (Some cmd) s').
  { intros rest Hc. split.
    - rewrite is_empty_spec, (chain_head _ _ _ Hc). reflexivity.
    - rewrite (peek_chain s' _ rest Hc), (cmd_at_new _ _ _ _ Hpl).
      reflexivity. }
  destruct ls as [|l rest]; [exact (Hnew _ Hch')|].
  destruct (prio_at (heap s) l <? prio); [exact (Hnew _ Hch')|].
  split.
  - rewrite is_empty_spec, (chain_head _ _ _ Hch'). reflexivity.
  - rewrite (peek_chain s' l rest' Hch').
    apply Forall_cons in Hb as [Hl _].
    rewrite (cmd_at_grow _ _ _ l Hpl Hl). reflexivity.
Qed.

Lemma enqueue_changes_peek_only_when_higher_witness :
  queue_chain sample [1; 0; 2]%nat /\
  valid_priority 7 /\
  exists s',
    enqueue "d" 7 sample = Ok tt s' /\
    is_empty s' = Ok false s' /\
    peek s' =
      Ok (Some match [1; 0; 2]%nat with
               | [] => "d"
               | l :: _ =>
                   if prio_at (heap sample) l <? 7 then "d"
                   else cmd_at (heap sample) l
               end) s'.
Proof.
  assert (Hch : queue_chain sample [1; 0; 2]%nat)
    by (apply (read_chain_sound 3); reflexivity).
  assert (Hv : valid_priority 7) by (split; discriminate).
  split; [exact Hch|]. split; [exact Hv|].
  exact (enqueue_changes_peek_only_when_higher sample _ "d" 7 Hch Hv).
Defined.

(** X7: on a well-formed queue that is empty or whose head has a strictly
    lower priority, [enqueue] followed by [dequeue] hands the new command
    straight back and restores the queue: the same head, the same chain,
    the same jobs on it; only the heap has one more (unlinked) object. *)
Theorem enqueue_dequeue_round_trip
  (s : state) (ls : list loc) (cmd : Command) (prio : Z) :
  queue_chain s ls ->
  valid_priority prio ->
  match ls with
  | [] => True
  | l :: _ => prio_at (heap s) l < prio
  end ->
  exists s1 s2,
    enqueue cmd prio s = Ok tt s1 /\
    dequeue s1 = Ok (Some cmd) s2 /\
    head (self s2) = head (self s) /\
    queue_chain s2 ls /\
    contents (heap s2) ls = contents (heap s) ls /\
    payload (heap s2) = payload (heap s) ++ [(cmd, prio)].
Proof.
  intros Hch Hv Hhigh. apply in_range_valid in Hv.
  destruct (enqueue_front_or_behind s ls cmd prio Hch Hv)
    as (s1 & rest' & Hrun & Hpl & Hch1).
  assert (Hfront : queue_chain s1 (length (heap s) :: ls)).
  { destruct ls as [|l rest]; [exact Hch1|].
    destruct (Z.ltb_spec (prio_at (heap s) l) prio); [exact Hch1|lia]. }
  destruct (dequeue_chain s1 _ ls Hfront) as (s2 & Hdq & Hheap & Hch2).
  exists s1, s2. split; [exact Hrun|]. split_all.
  - rewrite Hdq, (cmd_at_new _ _ _ _ Hpl). reflexivity.
  - rewrite (chain_head _ _ _ Hch2), (chain_head _ _ _ Hch). reflexivity.
  - exact Hch2.
  - rewrite Hheap. eapply contents_grow; [exact Hpl|].
    eapply chain_bound. exact Hch.
  - rewrite Hheap. exact Hpl.
Qed.

Lemma enqueue_dequeue_round_trip_witness :
  queue_chain sample [1; 0; 2]%nat /\
  valid_priority 9 /\
  prio_at (heap sample) 1 < 9 /\
  exists s1 s2,
    enqueue "d" 9 sample = Ok tt s1 /\
    dequeue s1 = Ok (Some "d") s2 /\
    head (self s2) = head (self sample) /\
    queue_chain s2 [1; 0; 2]%nat /\
    contents (heap s2) [1; 0; 2]%nat = contents (heap sample) [1; 0; 2]%nat /\
    payload (heap s2) = payload (heap sample) ++ [("d", 9)].
Proof.
  assert (Hch : queue_chain sample [1; 0; 2]%nat)
    by (apply (read_chain_sound 3); reflexivity).
  assert (Hv : valid_priority 9) by (split; discriminate).
  assert (Hhigh : prio_at (heap sample) 1 < 9) by reflexivity.
  split; [exact Hch|]. split; [exact Hv|]. split; [exact Hhigh|].
  exact (enqueue_dequeue_round_trip sample [1; 0; 2]%nat "d" 9 Hch Hv Hhigh).
Defined.

(** X8: in a state a caller can reach from a fresh queue, an [enqueue]
    with a valid priority puts the new job behind exactly the queued jobs
    of the same or a higher priority and in front of exactly those of a
    lower priority. *)
Theorem enqueue_lands_behind_equal_and_higher
  (ops : list op) (s : state) (cmd : Command) (prio : Z) :
  run ops init = Some s ->
  valid_priority prio ->
  exists s' pre post,
    queue_chain s (pre ++ post) /\
    enqueue cmd prio s = Ok tt s' /\
    queue_chain s' (pre ++ length (heap s) :: post) /\
    Forall (fun l => prio <= prio_at (heap s) l) pre /\
    Forall (fun l => prio_at (heap s) l < prio) post.
Proof.
  intros Hrun Hv. apply in_range_valid in Hv.
  destruct (run_reaches_ordered ops s Hrun) as (ls & [Hch Hs] & _).
  destruct (enqueue_spec s ls cmd prio Hch Hv)
    as (s' & pre & post & Henq & -> & Hch' & _ & Hpre & Hpost).
  exists s', pre, post. split_all; auto.
  apply StronglySorted_app in Hs as (_ & _ & Hs_post).
  apply (before_below _ _ _ Hs_post Hpost).
Qed.

Lemma enqueue_lands_behind_equal_and_higher_witness :
  run [Enqueue "a" 5; Enqueue "b" 7; Enqueue "c" 5] init = Some sample /\
  valid_priority 5 /\
  exists s' pre post,
    queue_chain sample (pre ++ post) /\
    enqueue "d" 5 sample = Ok tt s' /\
    queue_chain s' (pre ++ length (heap sample) :: post) /\
    Forall (fun l => 5 <= prio_at (heap sample) l) pre /\
    Forall (fun l => prio_at (heap sample) l < 5) post.
Proof.
  assert (Hrun : run [Enqueue "a" 5; Enqueue "b" 7; Enqueue "c" 5] init
                 = Some sample) by (vm_compute; reflexivity).
  assert (Hv : valid_priority 5) by (split; discriminate).
  split; [exact Hrun|]. split; [exact Hv|].
  exact (enqueue_lands_behind_equal_and_higher _ sample "d" 5 Hrun Hv).
Defined.

(** ** The release order is determined by the jobs of each priority *)

Section Unique.
Implicit Types (js cs : list (Command * Z)) (x y : Command * Z).

Lemma with_priority_cons p x js :
  with_priority p (x :: js) =
  if decide (x.2 = p) then x :: with_priority p js else with_priority p js.
Proof. reflexivity. Qed.

Lemma with_priority_elem p x js : x ∈ with_priority p js <-> x.2 = p /\ x ∈ js.
Proof.
  unfold with_priority. apply (list_elem_of_filter (fun y => y.2 = p)).
Qed.

(** A descending list is determined by its jobs of each priority. *)
Lemma stable_descending_unique js1 :
  forall js2,
    descending js1 -> descending js2 ->
    (forall p, with_priority p js1 = with_priority p js2) ->
    js1 = js2.
Proof.
  induction js1 as [|x js1 IH]; intros [|y js2] Hd1 Hd2 Hsame.
  - reflexivity.
  - specialize (Hsame y.2). rewrite with_priority_cons in Hsame.
    rewrite decide_True in Hsame by reflexivity. discriminate.
  - specialize (Hsame x.2). rewrite with_priority_cons in Hsame.
    rewrite decide_True in Hsame by reflexivity. discriminate.
  - apply StronglySorted_cons in Hd1 as [Hx Hd1].
    apply StronglySorted_cons in Hd2 as [Hy Hd2].
    rewrite Forall_forall in Hx, Hy.
    assert (Hyx : y.2 <= x.2).
    { assert (Hin : y ∈ with_priority y.2 (x :: js1)).
      { rewrite Hsame. apply with_priority_elem. split; [reflexivity|left]. }
      apply with_priority_elem in Hin as [_ Hin].
      apply elem_of_cons in Hin as [->|Hin]; [lia|apply Hx; exact Hin]. }
    assert (Hxy : x.2 <= y.2).
    { assert (Hin : x ∈ with_priority x.2 (y :: js2)).
      { rewrite <- Hsame. apply with_priority_elem.
        split; [reflexivity|left]. }
      apply with_priority_elem in Hin as [_ Hin].
      apply elem_of_cons in Hin as [->|Hin]; [lia|apply Hy; exact Hin]. }
    assert (Heq : x = y).
    { specialize (Hsame x.2). rewrite !with_priority_cons in Hsame.
      rewrite decide_True in Hsame by reflexivity.
      rewrite decide_True in Hsame by lia. congruence. }
    subst y. f_equal. apply IH; [exact Hd1|exact Hd2|].
    intros p. specialize (Hsame p). rewrite !with_priority_cons in Hsame.
    destruct (decide (x.2 = p)); congruence.
Qed.

Lemma with_priority_twice q k cs :
  with_priority q (with_priority k cs) =
  if decide (q = k) then with_priority q cs else [].
Proof.
  induction cs as [|x cs IH]; [destruct (decide (q = k)); reflexivity|].
  rewrite (with_priority_cons k), (with_priority_cons q).
  destruct (decide (x.2 = k)) as [Hk|Hk].
  - rewrite with_priority_cons, IH.
    destruct (decide (q = k)) as [->|Hq].
    + rewrite Hk. reflexivity.
    + rewrite decide_False by congruence. reflexivity.
  - rewrite IH. destruct (decide (q = k)) as [->|Hq]; [|reflexivity].
    rewrite decide_False by exact Hk. reflexivity.
Qed.

Lemma with_priority_app p js1 js2 :
  with_priority p (js1 ++ js2) = with_priority p js1 ++ with_priority p js2.
Proof. unfold with_priority. apply filter_app. Qed.

Lemma with_priority_buckets q cs (ks : list Z) :
  NoDup ks ->
  with_priority q (flat_map (fun p => with_priority p cs) ks) =
  if decide (q ∈ ks) then with_priority q cs else [].
Proof.
  induction 1 as [|k ks Hk _ IH]; cbn [flat_map].
  - rewrite decide_False by apply not_elem_of_nil. reflexivity.
  - rewrite with_priority_app, with_priority_twice, IH.
    destruct (decide (q = k)) as [->|Hq].
    + rewrite (decide_False (P := k ∈ ks)) by exact Hk.
      rewrite decide_True by left. apply app_nil_r.
    + destruct (decide (q ∈ ks)) as [Hin|Hnin].
      * rewrite decide_True by (right; exact Hin). reflexivity.
      * rewrite decide_False; [reflexivity|].
        intros [?|?]%elem_of_cons; contradiction.
Qed.

Lemma descending_buckets cs (ks : list Z) :
  StronglySorted (fun a b => b < a) ks ->
  descending (flat_map (fun p => with_priority p cs) ks).
Proof.
  unfold descending.
  induction 1 as [|k ks _ IH Hk]; cbn [flat_map]; [constructor|].
  apply StronglySorted_app. split_all.
  - intros x y [Hx _]%with_priority_elem Hy.
    apply list_elem_of_In, in_flat_map in Hy as (k' & Hk' & Hy).
    apply list_elem_of_In, with_priority_elem in Hy as [Hy _].
    rewrite Forall_forall in Hk.
    specialize (Hk k' (proj2 (list_elem_of_In _ _) Hk')). lia.
  - clear. induction cs as [|x cs IH]; [constructor|].
    rewrite with_priority_cons.
    destruct (decide (x.2 = k)) as [Hx|]; [|exact IH].
    constructor; [exact IH|].
    rewrite Forall_forall. intros y [Hy _]%with_priority_elem. lia.
  - exact IH.
Qed.

Lemma with_priority_invalid q cs :
  Forall (fun c => valid_priority c.2) cs ->
  ~ valid_priority q ->
  with_priority q cs = [].
Proof.
  intros Hv Hq. induction Hv as [|x cs Hx _ IH]; [reflexivity|].
  rewrite with_priority_cons, decide_False; [exact IH|].
  intros <-. contradiction.
Qed.

Lemma by_priority_spec cs :
  Forall (fun c => valid_priority c.2) cs ->
  descending (by_priority cs) /\
  forall q, with_priority q (by_priority cs) = with_priority q cs.
Proof.
  intros Hv. unfold by_priority. split.
  - apply descending_buckets.
    repeat (constructor; [|repeat constructor; reflexivity]). constructor.
  - intros q. rewrite with_priority_buckets
      by (apply (bool_decide_unpack _); vm_compute; exact I).
    destruct (decide (q ∈ [10; 9; 8; 7; 6; 5; 4; 3; 2; 1; 0]))
      as [|Hq]; [reflexivity|].
    symmetry. apply with_priority_invalid; [exact Hv|].
    intros [Hlo Hhi]. unfold MIN_PR, MAX_PR in *. apply Hq.
    apply list_elem_of_In. simpl. lia.
Qed.
End Unique.

(** Enqueue the jobs [cs] into a fresh queue, then dequeue until it is
    empty: what comes back are the commands along the chain. *)
Lemma enqueue_all_drain (cs : list (Command * Z)) (fuel : nat) :
  Forall (fun c => valid_priority c.2) cs ->
  (length cs < fuel)%nat ->
  exists s js,
    (let! _ := enqueue_all cs in drain fuel) init = Ok (Some <$> js.*1) s /\
    descending js /\
    forall p, with_priority p js = with_priority p cs.
Proof.
  intros Hvalid Hfuel.
  destruct (enqueue_all_stably_sorted cs [] init [] stably_sorted_init Hvalid)
    as (s1 & ls & Hrun & Hch & Hperm & Hdesc & Hstable).
  simpl in Hperm, Hstable.
  destruct (drain_spec ls s1 fuel Hch) as (s2 & Hdrain & _ & _).
  - apply Permutation_length in Hperm. unfold contents in Hperm.
    rewrite length_fmap in Hperm. lia.
  - exists s2, (contents (heap s1) ls). split_all; auto.
    unfold bind. rewrite Hrun. exact Hdrain.
Qed.

(** X9: what a drained queue returns depends only on the order in which
    the jobs of each single priority were enqueued, not on how jobs of
    different priorities were interleaved: two enqueue sequences with the
    same jobs of every priority, in the same order within each priority,
    drain to the same list. *)
Theorem drain_ignores_interleaving
  (cs1 cs2 : list (Command * Z)) (fuel : nat) :
  Forall (fun c => valid_priority c.2) cs1 ->
  Forall (fun c => valid_priority c.2) cs2 ->
  (forall p, with_priority p cs1 = with_priority p cs2) ->
  (length cs1 < fuel)%nat ->
  (length cs2 < fuel)%nat ->
  exists out s1 s2,
    (let! _ := enqueue_all cs1 in drain fuel) init = Ok out s1 /\
    (let! _ := enqueue_all cs2 in drain fuel) init = Ok out s2.
Proof.
  intros Hv1 Hv2 Hsame Hf1 Hf2.
  destruct (enqueue_all_drain cs1 fuel Hv1 Hf1) as (s1 & js1 & Hr1 & Hd1 & Hc1).
  destruct (enqueue_all_drain cs2 fuel Hv2 Hf2) as (s2 & js2 & Hr2 & Hd2 & Hc2).
  assert (js1 = js2).
  { apply stable_descending_unique; [exact Hd1|exact Hd2|].
    intros p. rewrite Hc1, Hc2. apply Hsame. }
  subst js2. eauto.
Qed.

Lemma drain_ignores_interleaving_witness :
  Forall (fun c => valid_priority c.2) [("a", 5); ("b", 7); ("c", 5)] /\
  Forall (fun c => valid_priority c.2) [("a", 5); ("c", 5); ("b", 7)] /\
  (forall p, with_priority p [("a", 5); ("b", 7); ("c", 5)] =
             with_priority p [("a", 5); ("c", 5); ("b", 7)]) /\
  (length [("a", 5); ("b", 7); ("c", 5)] < 4)%nat /\
  (length [("a", 5); ("c", 5); ("b", 7)] < 4)%nat /\
  exists out s1 s2,
    (let! _ := enqueue_all [("a", 5); ("b", 7); ("c", 5)] in drain 4) init
      = Ok out s1 /\
    (let! _ := enqueue_all [("a", 5); ("c", 5); ("b", 7)] in drain 4) init
      = Ok out s2.
Proof.
  assert (Hv1 : Forall (fun c => valid_priority c.2)
                  [("a", 5); ("b", 7); ("c", 5)])
    by (repeat constructor; vm_compute; discriminate).
  assert (Hv2 : Forall (fun c => valid_priority c.2)
                  [("a", 5); ("c", 5); ("b", 7)])
    by (repeat constructor; vm_compute; discriminate).
  assert (Hsame : forall p, with_priority p [("a", 5); ("b", 7); ("c", 5)] =
                            with_priority p [("a", 5); ("c", 5); ("b", 7)]).
  { intros p. rewrite !with_priority_cons. simpl.
    destruct (decide (5 = p)), (decide (7 = p)); try reflexivity. lia. }
  assert (Hf : (3 < 4)%nat) by lia.
  split; [exact Hv1|]. split; [exact Hv2|]. split; [exact Hsame|].
  split; [exact Hf|]. split; [exact Hf|].
  exact (drain_ignores_interleaving _ _ 4 Hv1 Hv2 Hsame Hf Hf).
Defined.

(** X10: enqueueing jobs with valid priorities into a fresh queue and
    dequeuing until it is empty returns the commands in the order written
    down in [by_priority]: all jobs of priority 10 in enqueue order, then
    all of priority 9, and so on down to priority 0. *)
Theorem drain_is_by_priority (cs : list (Command * Z)) (fuel : nat) :
  Forall (fun c => valid_priority c.2) cs ->
  (length cs < fuel)%nat ->
  exists s,
    (let! _ := enqueue_all cs in drain fuel) init
      = Ok (Some <$> (by_priority cs).*1) s.
Proof.
  intros Hv Hf.
  destruct (enqueue_all_drain cs fuel Hv Hf) as (s & js & Hr & Hd & Hc).
  destruct (by_priority_spec cs Hv) as [Hdb Hcb].
  assert (js = by_priority cs).
  { apply stable_descending_unique; [exact Hd|exact Hdb|].
    intros p. rewrite Hc, Hcb. reflexivity. }
  subst js. eauto.
Qed.

Lemma drain_is_by_priority_witness :
  Forall (fun c => valid_priority c.2) commands /\
  (length commands < 11)%nat /\
  exists s,
    (let! _ := enqueue_all commands in drain 11) init
      = Ok (Some <$> (by_priority commands).*1) s.
Proof.
  assert (Hv : Forall (fun c => valid_priority c.2) commands)
    by (repeat constructor; vm_compute; discriminate).
  assert (Hf : (length commands < 11)%nat) by (simpl; lia).
  split; [exact Hv|]. split; [exact Hf|].
  exact (drain_is_by_priority commands 11 Hv Hf).
Defined.

(** X11: used with one priority only, the queue is a plain first-in
    first-out queue: jobs that all have the same valid priority come back
    in exactly the order they were enqueued in. *)
Theorem single_priority_is_fifo
  (cs : list (Command * Z)) (p0 : Z) (fuel : nat) :
  valid_priority p0 ->
  Forall (fun c => c.2 = p0) cs ->
  (length cs < fuel)%nat ->
  exists s,
    (let! _ := enqueue_all cs in drain fuel) init = Ok (Some <$> cs.*1) s.
Proof.
  intros Hp0 Hall Hf.
  assert (Hv : Forall (fun c => valid_priority c.2) cs)
    by (eapply Forall_impl; [exact Hall|]; simpl; intros c ->; exact Hp0).
  destruct (enqueue_all_drain cs fuel Hv Hf) as (s & js & Hr & Hd & Hc).
  assert (js = cs).
  { apply stable_descending_unique; [exact Hd| |exact Hc].
    clear -Hall. unfold descending.
    induction Hall as [|x cs Hx Hall IH]; constructor; [exact IH|].
    eapply Forall_impl; [exact Hall|]. simpl. intros y Hy. lia. }
  subst js. eauto.
Qed.

Lemma single_priority_is_fifo_witness :
  valid_priority 4 /\
  Forall (fun c => c.2 = 4) [("x", 4); ("y", 4); ("x", 4)] /\
  (length [("x", 4); ("y", 4); ("x", 4)] < 4)%nat /\
  exists s,
    (let! _ := enqueue_all [("x", 4); ("y", 4); ("x", 4)] in drain 4) init
      = Ok (Some <$> [("x", 4); ("y", 4); ("x", 4)].*1) s.
Proof.
  assert (Hp : valid_priority 4) by (split; discriminate).
  assert (Hall : Forall (fun c => c.2 = 4) [("x", 4); ("y", 4); ("x", 4)])
    by (repeat constructor).
  assert (Hf : (3 < 4)%nat) by lia.
  split; [exact Hp|]. split; [exact Hall|]. split; [exact Hf|].
  exact (single_priority_is_fifo _ 4 4 Hp Hall Hf).
Defined.
